(** * Dial fusion, selection state machine and serial bridge

    A shallow embedding of the two core pieces of the motion-typing
    application:

    - [Frame]: the [Frame] React component, in the revision that edits
      a sentence held as an array of words ([INITIAL_SENTENCE]): the
      two dials with their mouse and encoder contributions, the
      WebSocket message handler with its resynchronisation, the four
      [useEffect] bodies that turn angles into word variants, cursor
      moves and sentence extension, and the completion callbacks of the
      two [fetch] calls;
    - [Bridge]: the line handler of [ArduinoHandler] on the server, with
      its frame pattern and its change check before a broadcast;
    - [Design]: the two hardware operations of a dial as the design
      document words them, to compare the handlers with.

    - [Session], [Display], [Sketch], [Relay], [Routes] and [Ports]:
      notions about runs of the component, the words it shows, the
      Arduino sketch that counts and prints, what joins the server to
      the component, the sentence the provider route masks and the
      choice of the serial port.

    [FrameFacts] and [BridgeFacts] hold the properties, [FrameMore],
    [DisplayFacts], [SketchFacts], [RelayFacts], [RoutesFacts] and
    [PortsFacts] those of the parts named last.

    Modelling conventions.

    - A JavaScript number that holds an angle is a rational ([Q]), and
      each [+], [-], [*] and [/] of the source is one operation of [Q].
      The source computes in binary floating point, where an operation
      may round: the properties below are stated operation by operation
      or on the values the component holds, and none of them says that
      an angle added up over several events is an exact sum or product.
      Counters and indices are integers ([Z]).
    - A character of a string is a code unit below 256.  The white space
      of JavaScript in that range is 9 to 13, 32 and 160.
    - [string | undefined] is [option string], with [None] for
      [undefined]; an array is a list of such values.
    - React state is one record.  A [useState] setter is a record update,
      a [useRef] cell is a field that is written at once, and an effect
      reads the values of the render it was created in (its closure)
      while its updates go to the state under construction.  Updates made
      in one handler or callback are batched into one render, as React 18
      does.
    - A [fetch] in flight is an entry of [pending] that holds the request
      and the values its completion callback closed over.
    - Logging and the debug read-outs are left out. *)

From Stdlib Require Import ZArith QArith Qround Qabs Lia Lqa Bool Ascii String.
From stdpp Require Import base list strings.

#[local] Open Scope Z_scope.

(** ** JavaScript values *)

(** [string | undefined]. *)
Definition jsstr : Type := option string.

(** [a[i]]: reading outside the array, or at a negative index, gives
    [undefined]. *)
Definition js_get (a : list jsstr) (i : Z) : jsstr :=
  if i <? 0 then None else mjoin (a !! Z.to_nat i).

(** [a[i] = v]: inside the array the element is replaced; at or past the
    end the array grows up to index [i], the skipped positions reading as
    [undefined]; a negative index sets a property and leaves the elements
    alone. *)
Definition js_set (a : list jsstr) (i : Z) (v : jsstr) : list jsstr :=
  if i <? 0 then a
  else
    let n := Z.to_nat i in
    if (n <? length a)%nat then <[n := v]> a
    else a ++ replicate (n - length a) None ++ [v].

(** [a.length]. *)
Definition js_length {A} (a : list A) : Z := Z.of_nat (length a).

(** [a.join(' ')]: an [undefined] element prints as the empty string. *)
Definition js_join (a : list jsstr) : string :=
  String.concat " " (default EmptyString <$> a).

(** [s.split(' ')]. *)
Fixpoint js_split (s : string) (cur : string) : list string :=
  match s with
  | EmptyString => [cur]
  | String c s' =>
      if bool_decide (c = " "%char) then cur :: js_split s' EmptyString
      else js_split s' (cur +:+ String c EmptyString)
  end.

(** [x > 0] on numbers. *)
Definition Qpositive (x : Q) : bool := negb (Qle_bool x 0).

(** ** The Frame component *)

Module Frame.

(** The body of a call to the variant provider
    ([POST /api/word-variations]). *)
Record Request := {
  word : jsstr;
  context : string;
  position : Z
}.

(** What the completion callback of a [fetch] closed over: the fetch
    for the variants of a word keeps [originalWord] and
    [selectedWordIndex] of its render, the fetch that predicts a new
    last word keeps [words] of its render, of which it uses the
    length. *)
Inductive Closure :=
| VariationsThen (originalWord : jsstr) (selectedWordIndex : Z)
| PredictThen (wordsLength : Z).

Record Pending := {
  request : Request;
  closure : Closure
}.

(** How a [fetch] ends: a body with a [variations] array, a body
    without one, or a rejection (network error, body that is not
    JSON), which runs the [catch] callback. *)
Inductive Response :=
| Variations (variations : list string)
| NoVariations
| Rejected.

Record State := {
  words : list jsstr;
  mouseRotation : Q;
  encoderRotation : Q;
  isDragging : bool;
  lastAngleRef : Q;
  rightMouseRotation : Q;
  rightEncoderRotation : Q;
  isRightDragging : bool;
  lastRightAngleRef : Q;
  selectedWordIndex : Z;
  lastRightRotationRef : Q;
  lastEncoder1Ref : Z;
  lastEncoder2Ref : Z;
  currentVariations : list jsstr;
  variationsFetchedForIndex : option Z;
  isPredicting : bool;
  needsSync : bool;
  pending : list Pending
}.

(** [const rotation = mouseRotation + encoderRotation] and its right
    twin: the effective angle of a dial. *)
Definition rotation (s : State) : Q := mouseRotation s + encoderRotation s.
Definition rightRotation (s : State) : Q :=
  rightMouseRotation s + rightEncoderRotation s.

(** *** Setters *)

Definition setWords (v : list jsstr) (s : State) : State :=
  {| words := v; mouseRotation := mouseRotation s;
     encoderRotation := encoderRotation s; isDragging := isDragging s;
     lastAngleRef := lastAngleRef s;
     rightMouseRotation := rightMouseRotation s;
     rightEncoderRotation := rightEncoderRotation s;
     isRightDragging := isRightDragging s;
     lastRightAngleRef := lastRightAngleRef s;
     selectedWordIndex := selectedWordIndex s;
     lastRightRotationRef := lastRightRotationRef s;
     lastEncoder1Ref := lastEncoder1Ref s;
     lastEncoder2Ref := lastEncoder2Ref s;
     currentVariations := currentVariations s;
     variationsFetchedForIndex := variationsFetchedForIndex s;
     isPredicting := isPredicting s; needsSync := needsSync s;
     pending := pending s |}.

Definition setMouseRotation (v : Q) (s : State) : State :=
  {| words := words s; mouseRotation := v;
     encoderRotation := encoderRotation s; isDragging := isDragging s;
     lastAngleRef := lastAngleRef s;
     rightMouseRotation := rightMouseRotation s;
     rightEncoderRotation := rightEncoderRotation s;
     isRightDragging := isRightDragging s;
     lastRightAngleRef := lastRightAngleRef s;
     selectedWordIndex := selectedWordIndex s;
     lastRightRotationRef := lastRightRotationRef s;
     lastEncoder1Ref := lastEncoder1Ref s;
     lastEncoder2Ref := lastEncoder2Ref s;
     currentVariations := currentVariations s;
     variationsFetchedForIndex := variationsFetchedForIndex s;
     isPredicting := isPredicting s; needsSync := needsSync s;
     pending := pending s |}.

Definition setEncoderRotation (v : Q) (s : State) : State :=
  {| words := words s; mouseRotation := mouseRotation s;
     encoderRotation := v; isDragging := isDragging s;
     lastAngleRef := lastAngleRef s;
     rightMouseRotation := rightMouseRotation s;
     rightEncoderRotation := rightEncoderRotation s;
     isRightDragging := isRightDragging s;
     lastRightAngleRef := lastRightAngleRef s;
     selectedWordIndex := selectedWordIndex s;
     lastRightRotationRef := lastRightRotationRef s;
     lastEncoder1Ref := lastEncoder1Ref s;
     lastEncoder2Ref := lastEncoder2Ref s;
     currentVariations := currentVariations s;
     variationsFetchedForIndex := variationsFetchedForIndex s;
     isPredicting := isPredicting s; needsSync := needsSync s;
     pending := pending s |}.

Definition setIsDragging (v : bool) (s : State) : State :=
  {| words := words s; mouseRotation := mouseRotation s;
     encoderRotation := encoderRotation s; isDragging := v;
     lastAngleRef := lastAngleRef s;
     rightMouseRotation := rightMouseRotation s;
     rightEncoderRotation := rightEncoderRotation s;
     isRightDragging := isRightDragging s;
     lastRightAngleRef := lastRightAngleRef s;
     selectedWordIndex := selectedWordIndex s;
     lastRightRotationRef := lastRightRotationRef s;
     lastEncoder1Ref := lastEncoder1Ref s;
     lastEncoder2Ref := lastEncoder2Ref s;
     currentVariations := currentVariations s;
     variationsFetchedForIndex := variationsFetchedForIndex s;
     isPredicting := isPredicting s; needsSync := needsSync s;
     pending := pending s |}.

Definition set_lastAngleRef (v : Q) (s : State) : State :=
  {| words := words s; mouseRotation := mouseRotation s;
     encoderRotation := encoderRotation s; isDragging := isDragging s;
     lastAngleRef := v; rightMouseRotation := rightMouseRotation s;
     rightEncoderRotation := rightEncoderRotation s;
     isRightDragging := isRightDragging s;
     lastRightAngleRef := lastRightAngleRef s;
     selectedWordIndex := selectedWordIndex s;
     lastRightRotationRef := lastRightRotationRef s;
     lastEncoder1Ref := lastEncoder1Ref s;
     lastEncoder2Ref := lastEncoder2Ref s;
     currentVariations := currentVariations s;
     variationsFetchedForIndex := variationsFetchedForIndex s;
     isPredicting := isPredicting s; needsSync := needsSync s;
     pending := pending s |}.

Definition setRightMouseRotation (v : Q) (s : State) : State :=
  {| words := words s; mouseRotation := mouseRotation s;
     encoderRotation := encoderRotation s; isDragging := isDragging s;
     lastAngleRef := lastAngleRef s; rightMouseRotation := v;
     rightEncoderRotation := rightEncoderRotation s;
     isRightDragging := isRightDragging s;
     lastRightAngleRef := lastRightAngleRef s;
     selectedWordIndex := selectedWordIndex s;
     lastRightRotationRef := lastRightRotationRef s;
     lastEncoder1Ref := lastEncoder1Ref s;
     lastEncoder2Ref := lastEncoder2Ref s;
     currentVariations := currentVariations s;
     variationsFetchedForIndex := variationsFetchedForIndex s;
     isPredicting := isPredicting s; needsSync := needsSync s;
     pending := pending s |}.

Definition setRightEncoderRotation (v : Q) (s : State) : State :=
  {| words := words s; mouseRotation := mouseRotation s;
     encoderRotation := encoderRotation s; isDragging := isDragging s;
     lastAngleRef := lastAngleRef s;
     rightMouseRotation := rightMouseRotation s; rightEncoderRotation := v;
     isRightDragging := isRightDragging s;
     lastRightAngleRef := lastRightAngleRef s;
     selectedWordIndex := selectedWordIndex s;
     lastRightRotationRef := lastRightRotationRef s;
     lastEncoder1Ref := lastEncoder1Ref s;
     lastEncoder2Ref := lastEncoder2Ref s;
     currentVariations := currentVariations s;
     variationsFetchedForIndex := variationsFetchedForIndex s;
     isPredicting := isPredicting s; needsSync := needsSync s;
     pending := pending s |}.

Definition setIsRightDragging (v : bool) (s : State) : State :=
  {| words := words s; mouseRotation := mouseRotation s;
     encoderRotation := encoderRotation s; isDragging := isDragging s;
     lastAngleRef := lastAngleRef s;
     rightMouseRotation := rightMouseRotation s;
     rightEncoderRotation := rightEncoderRotation s; isRightDragging := v;
     lastRightAngleRef := lastRightAngleRef s;
     selectedWordIndex := selectedWordIndex s;
     lastRightRotationRef := lastRightRotationRef s;
     lastEncoder1Ref := lastEncoder1Ref s;
     lastEncoder2Ref := lastEncoder2Ref s;
     currentVariations := currentVariations s;
     variationsFetchedForIndex := variationsFetchedForIndex s;
     isPredicting := isPredicting s; needsSync := needsSync s;
     pending := pending s |}.

Definition set_lastRightAngleRef (v : Q) (s : State) : State :=
  {| words := words s; mouseRotation := mouseRotation s;
     encoderRotation := encoderRotation s; isDragging := isDragging s;
     lastAngleRef := lastAngleRef s;
     rightMouseRotation := rightMouseRotation s;
     rightEncoderRotation := rightEncoderRotation s;
     isRightDragging := isRightDragging s; lastRightAngleRef := v;
     selectedWordIndex := selectedWordIndex s;
     lastRightRotationRef := lastRightRotationRef s;
     lastEncoder1Ref := lastEncoder1Ref s;
     lastEncoder2Ref := lastEncoder2Ref s;
     currentVariations := currentVariations s;
     variationsFetchedForIndex := variationsFetchedForIndex s;
     isPredicting := isPredicting s; needsSync := needsSync s;
     pending := pending s |}.

Definition setSelectedWordIndex (v : Z) (s : State) : State :=
  {| words := words s; mouseRotation := mouseRotation s;
     encoderRotation := encoderRotation s; isDragging := isDragging s;
     lastAngleRef := lastAngleRef s;
     rightMouseRotation := rightMouseRotation s;
     rightEncoderRotation := rightEncoderRotation s;
     isRightDragging := isRightDragging s;
     lastRightAngleRef := lastRightAngleRef s; selectedWordIndex := v;
     lastRightRotationRef := lastRightRotationRef s;
     lastEncoder1Ref := lastEncoder1Ref s;
     lastEncoder2Ref := lastEncoder2Ref s;
     currentVariations := currentVariations s;
     variationsFetchedForIndex := variationsFetchedForIndex s;
     isPredicting := isPredicting s; needsSync := needsSync s;
     pending := pending s |}.

Definition set_lastRightRotationRef (v : Q) (s : State) : State :=
  {| words := words s; mouseRotation := mouseRotation s;
     encoderRotation := encoderRotation s; isDragging := isDragging s;
     lastAngleRef := lastAngleRef s;
     rightMouseRotation := rightMouseRotation s;
     rightEncoderRotation := rightEncoderRotation s;
     isRightDragging := isRightDragging s;
     lastRightAngleRef := lastRightAngleRef s;
     selectedWordIndex := selectedWordIndex s; lastRightRotationRef := v;
     lastEncoder1Ref := lastEncoder1Ref s;
     lastEncoder2Ref := lastEncoder2Ref s;
     currentVariations := currentVariations s;
     variationsFetchedForIndex := variationsFetchedForIndex s;
     isPredicting := isPredicting s; needsSync := needsSync s;
     pending := pending s |}.

Definition set_lastEncoder1Ref (v : Z) (s : State) : State :=
  {| words := words s; mouseRotation := mouseRotation s;
     encoderRotation := encoderRotation s; isDragging := isDragging s;
     lastAngleRef := lastAngleRef s;
     rightMouseRotation := rightMouseRotation s;
     rightEncoderRotation := rightEncoderRotation s;
     isRightDragging := isRightDragging s;
     lastRightAngleRef := lastRightAngleRef s;
     selectedWordIndex := selectedWordIndex s;
     lastRightRotationRef := lastRightRotationRef s; lastEncoder1Ref := v;
     lastEncoder2Ref := lastEncoder2Ref s;
     currentVariations := currentVariations s;
     variationsFetchedForIndex := variationsFetchedForIndex s;
     isPredicting := isPredicting s; needsSync := needsSync s;
     pending := pending s |}.

Definition set_lastEncoder2Ref (v : Z) (s : State) : State :=
  {| words := words s; mouseRotation := mouseRotation s;
     encoderRotation := encoderRotation s; isDragging := isDragging s;
     lastAngleRef := lastAngleRef s;
     rightMouseRotation := rightMouseRotation s;
     rightEncoderRotation := rightEncoderRotation s;
     isRightDragging := isRightDragging s;
     lastRightAngleRef := lastRightAngleRef s;
     selectedWordIndex := selectedWordIndex s;
     lastRightRotationRef := lastRightRotationRef s;
     lastEncoder1Ref := lastEncoder1Ref s; lastEncoder2Ref := v;
     currentVariations := currentVariations s;
     variationsFetchedForIndex := variationsFetchedForIndex s;
     isPredicting := isPredicting s; needsSync := needsSync s;
     pending := pending s |}.

Definition setCurrentVariations (v : list jsstr) (s : State) : State :=
  {| words := words s; mouseRotation := mouseRotation s;
     encoderRotation := encoderRotation s; isDragging := isDragging s;
     lastAngleRef := lastAngleRef s;
     rightMouseRotation := rightMouseRotation s;
     rightEncoderRotation := rightEncoderRotation s;
     isRightDragging := isRightDragging s;
     lastRightAngleRef := lastRightAngleRef s;
     selectedWordIndex := selectedWordIndex s;
     lastRightRotationRef := lastRightRotationRef s;
     lastEncoder1Ref := lastEncoder1Ref s;
     lastEncoder2Ref := lastEncoder2Ref s; currentVariations := v;
     variationsFetchedForIndex := variationsFetchedForIndex s;
     isPredicting := isPredicting s; needsSync := needsSync s;
     pending := pending s |}.

Definition setVariationsFetchedForIndex (v : option Z) (s : State) : State :=
  {| words := words s; mouseRotation := mouseRotation s;
     encoderRotation := encoderRotation s; isDragging := isDragging s;
     lastAngleRef := lastAngleRef s;
     rightMouseRotation := rightMouseRotation s;
     rightEncoderRotation := rightEncoderRotation s;
     isRightDragging := isRightDragging s;
     lastRightAngleRef := lastRightAngleRef s;
     selectedWordIndex := selectedWordIndex s;
     lastRightRotationRef := lastRightRotationRef s;
     lastEncoder1Ref := lastEncoder1Ref s;
     lastEncoder2Ref := lastEncoder2Ref s;
     currentVariations := currentVariations s;
     variationsFetchedForIndex := v; isPredicting := isPredicting s;
     needsSync := needsSync s; pending := pending s |}.

Definition setIsPredicting (v : bool) (s : State) : State :=
  {| words := words s; mouseRotation := mouseRotation s;
     encoderRotation := encoderRotation s; isDragging := isDragging s;
     lastAngleRef := lastAngleRef s;
     rightMouseRotation := rightMouseRotation s;
     rightEncoderRotation := rightEncoderRotation s;
     isRightDragging := isRightDragging s;
     lastRightAngleRef := lastRightAngleRef s;
     selectedWordIndex := selectedWordIndex s;
     lastRightRotationRef := lastRightRotationRef s;
     lastEncoder1Ref := lastEncoder1Ref s;
     lastEncoder2Ref := lastEncoder2Ref s;
     currentVariations := currentVariations s;
     variationsFetchedForIndex := variationsFetchedForIndex s;
     isPredicting := v; needsSync := needsSync s; pending := pending s |}.

Definition set_needsSync (v : bool) (s : State) : State :=
  {| words := words s; mouseRotation := mouseRotation s;
     encoderRotation := encoderRotation s; isDragging := isDragging s;
     lastAngleRef := lastAngleRef s;
     rightMouseRotation := rightMouseRotation s;
     rightEncoderRotation := rightEncoderRotation s;
     isRightDragging := isRightDragging s;
     lastRightAngleRef := lastRightAngleRef s;
     selectedWordIndex := selectedWordIndex s;
     lastRightRotationRef := lastRightRotationRef s;
     lastEncoder1Ref := lastEncoder1Ref s;
     lastEncoder2Ref := lastEncoder2Ref s;
     currentVariations := currentVariations s;
     variationsFetchedForIndex := variationsFetchedForIndex s;
     isPredicting := isPredicting s; needsSync := v; pending := pending s |}.

Definition set_pending (v : list Pending) (s : State) : State :=
  {| words := words s; mouseRotation := mouseRotation s;
     encoderRotation := encoderRotation s; isDragging := isDragging s;
     lastAngleRef := lastAngleRef s;
     rightMouseRotation := rightMouseRotation s;
     rightEncoderRotation := rightEncoderRotation s;
     isRightDragging := isRightDragging s;
     lastRightAngleRef := lastRightAngleRef s;
     selectedWordIndex := selectedWordIndex s;
     lastRightRotationRef := lastRightRotationRef s;
     lastEncoder1Ref := lastEncoder1Ref s;
     lastEncoder2Ref := lastEncoder2Ref s;
     currentVariations := currentVariations s;
     variationsFetchedForIndex := variationsFetchedForIndex s;
     isPredicting := isPredicting s; needsSync := needsSync s;
     pending := v |}.

(** *** WebSocket handlers *)

(** Degrees per detent: [3.6]. *)
Definition gain : Q := 36 # 10.

(** A parsed relay message: [{type: "encoder", data: {encoder1,
    encoder2}}], or anything else. *)
Inductive Message :=
| Encoder (encoder1 encoder2 : Z)
| Other.

(** [ws.onopen]. *)
Definition ws_onopen (s : State) : State := set_needsSync true s.

(** The [needsSync] branch of [ws.onmessage]. *)
Definition encoder_sync (encoder1 encoder2 : Z) (s : State) : State :=
  let s := setEncoderRotation (inject_Z encoder1 * gain)%Q s in
  let s := setRightEncoderRotation (inject_Z encoder2 * gain)%Q s in
  let s := set_lastEncoder1Ref encoder1 s in
  let s := set_lastEncoder2Ref encoder2 s in
  set_needsSync false s.

(** The encoder 1 block of [ws.onmessage] (left dial).  Each branch is
    one multiplication, or one multiplication and one addition, of the
    source. *)
Definition encoder1_tick (encoder1 : Z) (s : State) : State :=
  if bool_decide (encoder1 ≠ lastEncoder1Ref s) then
    let delta := encoder1 - lastEncoder1Ref s in
    let s :=
      if 100 <? Z.abs delta then
        setEncoderRotation (inject_Z encoder1 * gain)%Q s
      else
        setEncoderRotation (encoderRotation s + inject_Z delta * gain)%Q s in
    set_lastEncoder1Ref encoder1 s
  else s.

(** The encoder 2 block of [ws.onmessage] (right dial). *)
Definition encoder2_tick (encoder2 : Z) (s : State) : State :=
  if bool_decide (encoder2 ≠ lastEncoder2Ref s) then
    let delta := encoder2 - lastEncoder2Ref s in
    let s :=
      if 100 <? Z.abs delta then
        setRightEncoderRotation (inject_Z encoder2 * gain)%Q s
      else
        setRightEncoderRotation
          (rightEncoderRotation s + inject_Z delta * gain)%Q s in
    set_lastEncoder2Ref encoder2 s
  else s.

(** [ws.onmessage]. *)
Definition ws_onmessage (m : Message) (s : State) : State :=
  match m with
  | Encoder encoder1 encoder2 =>
      if needsSync s then encoder_sync encoder1 encoder2 s
      else encoder2_tick encoder2 (encoder1_tick encoder1 s)
  | Other => s
  end.

(** *** Effects

    Each effect takes the render [r] whose values it closed over and the
    state [s] its updates go to. *)

(** [const threshold = 60]. *)
Definition threshold : Q := 60.

(** [fetch(...)]: the request leaves and its callbacks wait. *)
Definition fetch (q : Request) (k : Closure) (s : State) : State :=
  set_pending (pending s ++ [{| request := q; closure := k |}]) s.

(** [useEffect(..., [selectedWordIndex])]: reset the variants. *)
Definition effect_reset (r s : State) : State :=
  let s := setCurrentVariations [js_get (words r) (selectedWordIndex r)] s in
  setVariationsFetchedForIndex None s.

(** The updater given to [setWords] by the left-dial effect. *)
Definition write_word (selectedWordIndex : Z) (selectedVariation : jsstr)
    (prev : list jsstr) : list jsstr :=
  if bool_decide (js_get prev selectedWordIndex = selectedVariation) then prev
  else js_set prev selectedWordIndex selectedVariation.

(** [variationIdx] of the left-dial effect; [%] is the remainder. *)
Definition variationIdx (r : State) : Z :=
  Z.rem (Qfloor (Qabs (rotation r) / threshold)%Q)
        (js_length (currentVariations r)).

(** [useEffect(..., [rotation])]: fetch the variants of the selected
    word, or choose among them by the left angle. *)
Definition effect_variation (r s : State) : State :=
  if bool_decide (variationsFetchedForIndex r ≠ Some (selectedWordIndex r))
  then
    let originalWord := js_get (words r) (selectedWordIndex r) in
    fetch {| word := originalWord;
             context := js_join (words r);
             position := selectedWordIndex r |}
          (VariationsThen originalWord (selectedWordIndex r)) s
  else if bool_decide (js_length (currentVariations r) = 0) then s
  else
    let i := variationIdx r in
    if (0 <=? i) && (i <? js_length (currentVariations r)) then
      let selectedVariation := js_get (currentVariations r) i in
      setWords (write_word (selectedWordIndex r) selectedVariation (words s)) s
    else s.

(** The updater given to [setSelectedWordIndex] by the right-dial
    effect. *)
Definition move_index (steps direction wordsLength prev : Z) : Z :=
  let newIndex := prev + steps * direction in
  if newIndex <? 0 then 0
  else if wordsLength <=? newIndex then wordsLength
  else newIndex.

(** [useEffect(..., [rightRotation, words.length])]: move the cursor by
    whole steps of the right angle. *)
Definition effect_navigation (r s : State) : State :=
  let rotationChange := (rightRotation r - lastRightRotationRef s)%Q in
  let steps := Qfloor (Qabs rotationChange / threshold)%Q in
  if 0 <? steps then
    let direction := if Qpositive rotationChange then 1 else -1 in
    let s :=
      setSelectedWordIndex
        (move_index steps direction (js_length (words r))
           (selectedWordIndex s)) s in
    set_lastRightRotationRef
      (lastRightRotationRef s
       + inject_Z steps * threshold * inject_Z direction)%Q s
  else s.

(** [useEffect(..., [selectedWordIndex, words, isPredicting])]: ask for
    a new last word when the cursor is past the end. *)
Definition effect_predict (r s : State) : State :=
  if (js_length (words r) <=? selectedWordIndex r) && negb (isPredicting r)
  then
    let s := setIsPredicting true s in
    fetch {| word := Some "[PREDICT]"%string;
             context := js_join (words r) +:+ " [MASK]";
             position := js_length (words r) |}
          (PredictThen (js_length (words r))) s
  else s.

(** *** Rendering

    After a render the effects whose dependencies differ from the
    previous render run in the order of the source; what they set makes
    the next render. *)

Definition run (changed : bool) (effect : State -> State -> State)
    (r s : State) : State :=
  if changed then effect r s else s.

(** The effects of render [r] after render [p]; [d_words] tells whether
    [words] is another array than in [p]. *)
Definition flush_with (d_words : bool) (p r : State) : State :=
  let d_index :=
    negb (bool_decide (selectedWordIndex p = selectedWordIndex r)) in
  let d_rotation := negb (Qeq_bool (rotation p) (rotation r)) in
  let d_right := negb (Qeq_bool (rightRotation p) (rightRotation r)) in
  let d_length :=
    negb (bool_decide (js_length (words p) = js_length (words r))) in
  let d_predicting := negb (eqb (isPredicting p) (isPredicting r)) in
  let s := run d_index effect_reset r r in
  let s := run d_rotation effect_variation r s in
  let s := run (d_right || d_length) effect_navigation r s in
  run (d_index || d_words || d_predicting) effect_predict r s.

(** An updater of [setWords] returns the array it was given or one with
    other contents, so the array is another one exactly when the
    contents differ. *)
Definition flush (p r : State) : State :=
  flush_with (negb (bool_decide (words p = words r))) p r.

(** The first render runs every effect. *)
Definition flush_mount (r : State) : State :=
  effect_predict r
    (effect_navigation r (effect_variation r (effect_reset r r))).

(** Renders follow each other while effects set state; [renders] of them
    are enough ([settle_stable]). *)
Fixpoint settle (fuel : nat) (p r : State) : State :=
  match fuel with
  | O => r
  | S fuel => settle fuel r (flush p r)
  end.

Definition renders : nat := 4.

(** *** Completion of the fetches *)

(** The [then] callback of the variants fetch; its [catch] only logs. *)
Definition variations_then (originalWord : jsstr) (selectedWordIndex : Z)
    (resp : Response) (s : State) : State :=
  match resp with
  | Variations variations =>
      let s :=
        if 0 <? js_length variations then
          setCurrentVariations (originalWord :: (Some <$> variations)) s
        else s in
      setVariationsFetchedForIndex (Some selectedWordIndex) s
  | NoVariations => setVariationsFetchedForIndex (Some selectedWordIndex) s
  | Rejected => s
  end.

(** The [then] and [catch] callbacks of the prediction fetch. *)
Definition predict_then (wordsLength : Z) (resp : Response) (s : State)
    : State :=
  match resp with
  | Variations (predictedWord :: rest) =>
      let s := setWords (words s ++ [Some predictedWord]) s in
      let s := setCurrentVariations (Some <$> predictedWord :: rest) s in
      let s := setVariationsFetchedForIndex (Some wordsLength) s in
      setIsPredicting false s
  | Variations [] | NoVariations => setIsPredicting false s
  | Rejected =>
      let s := setIsPredicting false s in
      setSelectedWordIndex (wordsLength - 1) s
  end.

Definition resume (k : Closure) : Response -> State -> State :=
  match k with
  | VariationsThen originalWord selectedWordIndex =>
      variations_then originalWord selectedWordIndex
  | PredictThen wordsLength => predict_then wordsLength
  end.

(** *** Mouse handlers

    The pointer angle [getAngle(...)] comes with the event. *)

Definition normalize (deltaAngle : Q) : Q :=
  let deltaAngle :=
    (if Qpositive (deltaAngle - 180) then deltaAngle - 360 else deltaAngle)%Q
  in
  (if Qpositive (- (180) - deltaAngle) then deltaAngle + 360
   else deltaAngle)%Q.

Definition handleMouseDown (angle : Q) (s : State) : State :=
  set_lastAngleRef angle (setIsDragging true s).

Definition handleMouseMove (currentAngle : Q) (s : State) : State :=
  if isDragging s then
    let deltaAngle := normalize (currentAngle - lastAngleRef s)%Q in
    set_lastAngleRef currentAngle
      (setMouseRotation (mouseRotation s + deltaAngle)%Q s)
  else s.

Definition handleMouseUp (s : State) : State := setIsDragging false s.

Definition handleRightMouseDown (angle : Q) (s : State) : State :=
  set_lastRightAngleRef angle (setIsRightDragging true s).

Definition handleRightMouseMove (currentAngle : Q) (s : State) : State :=
  if isRightDragging s then
    let deltaAngle := normalize (currentAngle - lastRightAngleRef s)%Q in
    set_lastRightAngleRef currentAngle
      (setRightMouseRotation (rightMouseRotation s + deltaAngle)%Q s)
  else s.

Definition handleRightMouseUp (s : State) : State :=
  setIsRightDragging false s.

(** *** Events *)

Inductive Event :=
| WsOpen
| WsMessage (m : Message)
| MouseDown (angle : Q)
| MouseMove (angle : Q)
| MouseUp
| RightMouseDown (angle : Q)
| RightMouseMove (angle : Q)
| RightMouseUp
| Resolve (i : nat) (resp : Response).

(** The handler of an event, before the renders it causes.  [Resolve i]
    completes the [i]-th fetch in flight. *)
Definition handle (e : Event) (s : State) : State :=
  match e with
  | WsOpen => ws_onopen s
  | WsMessage m => ws_onmessage m s
  | MouseDown a => handleMouseDown a s
  | MouseMove a => handleMouseMove a s
  | MouseUp => handleMouseUp s
  | RightMouseDown a => handleRightMouseDown a s
  | RightMouseMove a => handleRightMouseMove a s
  | RightMouseUp => handleRightMouseUp s
  | Resolve i resp =>
      match pending s !! i with
      | Some f => resume (closure f) resp (set_pending (delete i (pending s)) s)
      | None => s
      end
  end.

Definition dispatch (e : Event) (s : State) : State :=
  settle renders s (handle e s).

(** *** The first render *)

Definition INITIAL_SENTENCE : string :=
  "We remain lingering this evening near the glassframe since the lunar lantern carries an excess of tender radiance".

Definition initial : State :=
  {| words := Some <$> js_split INITIAL_SENTENCE EmptyString;
     mouseRotation := 0; encoderRotation := 0;
     isDragging := false; lastAngleRef := 0;
     rightMouseRotation := 0; rightEncoderRotation := 0;
     isRightDragging := false; lastRightAngleRef := 0;
     selectedWordIndex := 0; lastRightRotationRef := 0;
     lastEncoder1Ref := 0; lastEncoder2Ref := 0;
     currentVariations := []; variationsFetchedForIndex := None;
     isPredicting := false; needsSync := true; pending := [] |}.

Definition mounted : State :=
  let r := initial in settle renders r (flush_mount r).

(** *** Runs and invariants *)

Fixpoint run_events (es : list Event) (s : State) : State :=
  match es with
  | [] => s
  | e :: es => run_events es (dispatch e s)
  end.

(** The component at rest on a sentence: no dial turned, no fetch in
    flight, the variants reset for the word under the cursor, the relay
    synchronised at counters 0. *)
Definition resting (sentence : list jsstr) (cursor : Z) : State :=
  {| words := sentence;
     mouseRotation := 0; encoderRotation := 0;
     isDragging := false; lastAngleRef := 0;
     rightMouseRotation := 0; rightEncoderRotation := 0;
     isRightDragging := false; lastRightAngleRef := 0;
     selectedWordIndex := cursor; lastRightRotationRef := 0;
     lastEncoder1Ref := 0; lastEncoder2Ref := 0;
     currentVariations := [js_get sentence cursor];
     variationsFetchedForIndex := None;
     isPredicting := false; needsSync := false; pending := [] |}.

(** What the right dial has turned since the last consumed angle. *)
Definition residual (s : State) : Q :=
  rightRotation s - lastRightRotationRef s.

(** [newIndex] of the navigation updater in render [r], before it is
    clamped. *)
Definition newIndex (r : State) : Z :=
  let rotationChange := (rightRotation r - lastRightRotationRef r)%Q in
  let steps := Qfloor (Qabs rotationChange / threshold)%Q in
  selectedWordIndex r + steps * (if Qpositive rotationChange then 1 else -1).






(** The cursor is an index of the sentence or the position after it. *)
Definition cursor_in_range (s : State) : Prop :=
  0 <= selectedWordIndex s <= js_length (words s).



(** What the relay handler owns: both dials, the two counter baselines
    and the resynchronisation flag. *)
Definition fusion (s : State) : Q * Q * Q * Q * Z * Z * bool :=
  (mouseRotation s, encoderRotation s, rightMouseRotation s,
   rightEncoderRotation s, lastEncoder1Ref s, lastEncoder2Ref s, needsSync s).

(** The values the effects depend on. *)
Definition same_deps (p r : State) : Prop :=
  selectedWordIndex p = selectedWordIndex r
  ∧ (rotation p == rotation r)%Q
  ∧ (rightRotation p == rightRotation r)%Q
  ∧ words p = words r
  ∧ isPredicting p = isPredicting r.


(** What the navigation effect sets: the cursor and the consumed
    angle. *)
Definition nav_state (s : State) : Z * Q :=
  (selectedWordIndex s, lastRightRotationRef s).



(** What the mouse handlers keep between two events. *)
Definition pointer (s : State) : bool * Q * bool * Q :=
  (isDragging s, lastAngleRef s, isRightDragging s, lastRightAngleRef s).


End Frame.

(** ** The serial bridge *)

Module Bridge.

#[local] Open Scope string_scope.

Record EncoderData := {
  encoder1 : Z;
  encoder2 : Z
}.

(** A viewer connection of the WebSocket server. *)
Inductive ReadyState := CONNECTING | OPEN | CLOSING | CLOSED.

Record Client := {
  ident : nat;
  readyState : ReadyState
}.

(** The fields of [ArduinoHandler] that the line handler uses. *)
Record Handler := {
  currentData : EncoderData;
  wss : option (list Client)
}.

(** One [client.send(message)], with the payload of the message
    [{type: "encoder", data}]. *)
Record Send := {
  receiver : nat;
  data : EncoderData
}.

(** *** The frame pattern [/E1:(-?\d+),E2:(-?\d+)/] *)

Definition is_digit (c : ascii) : bool :=
  let n := nat_of_ascii c in (48 <=? n)%nat && (n <=? 57)%nat.

(** White space removed by [trim()]: tab, line feed, vertical tab, form
    feed, carriage return, space and no-break space. *)
Definition is_space (c : ascii) : bool :=
  let n := nat_of_ascii c in
  ((9 <=? n)%nat && (n <=? 13)%nat) || (n =? 32)%nat || (n =? 160)%nat.

Fixpoint trim_start (s : string) : string :=
  match s with
  | String c s' => if is_space c then trim_start s' else s
  | EmptyString => EmptyString
  end.

Definition reverse_string (s : string) : string :=
  string_of_list_ascii (reverse (list_ascii_of_string s)).

(** [line.trim()]. *)
Definition trim (s : string) : string :=
  reverse_string (trim_start (reverse_string (trim_start s))).

(** [\d+], greedy: the longest run of digits and what follows it. *)
Fixpoint span_digits (s : string) : string * string :=
  match s with
  | String c s' =>
      if is_digit c then
        let '(d, r) := span_digits s' in (String c d, r)
      else (EmptyString, s)
  | EmptyString => (EmptyString, EmptyString)
  end.

(** [(-?\d+)]: the capture and what follows it.  Giving up the sign or
    a digit never helps the rest of the pattern, so the greedy choice is
    the only one tried. *)
Definition match_int (s : string) : option (string * string) :=
  let '(sign, s1) :=
    match s with
    | String c s' => if bool_decide (c = "-"%char) then ("-", s') else ("", s)
    | EmptyString => ("", s)
    end in
  let '(d, r) := span_digits s1 in
  if bool_decide (d = "") then None else Some (sign ++ d, r).

(** A literal piece of the pattern. *)
Fixpoint match_lit (lit s : string) : option string :=
  match lit, s with
  | EmptyString, _ => Some s
  | String a lit', String b s' =>
      if bool_decide (a = b) then match_lit lit' s' else None
  | String _ _, EmptyString => None
  end.

(** The pattern at the start of [s]: the two captures. *)
Definition match_here (s : string) : option (string * string) :=
  r1 ← match_lit "E1:" s;
  '(g1, r2) ← match_int r1;
  r3 ← match_lit ",E2:" r2;
  '(g2, _) ← match_int r3;
  Some (g1, g2).

(** [msg.match(...)]: the leftmost place where the pattern matches. *)
Fixpoint exec (s : string) : option (string * string) :=
  match match_here s with
  | Some m => Some m
  | None =>
      match s with
      | String _ s' => exec s'
      | EmptyString => None
      end
  end.

Fixpoint digits_value (s : string) (acc : Z) : Z :=
  match s with
  | String c s' =>
      if is_digit c then
        digits_value s' (10 * acc + (Z.of_nat (nat_of_ascii c) - 48))
      else acc
  | EmptyString => acc
  end.

(** [parseInt(s, 10)] on a capture of [-?\d+]: the integer the digits
    denote, which a JavaScript number holds exactly up to 2^53, far
    beyond the 32 bits of a counter. *)
Definition parseInt (s : string) : Z :=
  match s with
  | String c s' =>
      if bool_decide (c = "-"%char) then - digits_value s' 0
      else digits_value s 0
  | EmptyString => 0
  end.

(** The counter pair of a line, when it has one. *)
Definition parse (msg : string) : option EncoderData :=
  '(g1, g2) ← exec msg;
  Some {| encoder1 := parseInt g1; encoder2 := parseInt g2 |}.

(** *** The line handler *)

Definition is_open (c : Client) : bool :=
  match readyState c with OPEN => true | _ => false end.

(** [broadcast(data)]: one send to each open viewer. *)
Definition broadcast (h : Handler) (d : EncoderData) : list Send :=
  match wss h with
  | None => []
  | Some clients =>
      (λ c, {| receiver := ident c; data := d |}) <$> filter is_open clients
  end.

(** [parser.on("data", line => ...)]: the handler after the line and the
    sends it made. *)
Definition on_data (line : string) (h : Handler) : Handler * list Send :=
  let msg := trim line in
  match parse msg with
  | Some d =>
      if negb (bool_decide (encoder1 (currentData h) = encoder1 d))
         || negb (bool_decide (encoder2 (currentData h) = encoder2 d))
      then
        let h := {| currentData := d; wss := wss h |} in
        (h, broadcast h (currentData h))
      else (h, [])
  | None => (h, [])
  end.

(** The lines of the serial stream, one after the other. *)
Fixpoint feed (lines : list string) (h : Handler) : Handler * list Send :=
  match lines with
  | [] => (h, [])
  | line :: lines =>
      let '(h1, out1) := on_data line h in
      let '(h2, out2) := feed lines h1 in
      (h2, (out1 ++ out2)%list)
  end.

(** *** The shape of a frame, as the interface describes it *)

(** [<int>]: an optional minus sign and at least one digit. *)
Definition all_digits (s : string) : Prop :=
  Forall (λ c, is_digit c = true) (list_ascii_of_string s).

Definition is_int (s : string) : Prop :=
  ∃ d, d ≠ "" ∧ all_digits d ∧ (s = d ∨ s = "-" ++ d).

(** [E1:<int>,E2:<int>]. *)
Definition is_frame (s : string) : Prop :=
  ∃ a b, is_int a ∧ is_int b ∧ s = "E1:" ++ a ++ ",E2:" ++ b.

(** The line has a frame somewhere in it. *)
Definition has_frame (s : string) : Prop :=
  ∃ pre f post, is_frame f ∧ s = pre ++ f ++ post.

(** The viewers a broadcast goes to. *)
Definition open_viewers (h : Handler) : list Client :=
  filter is_open (default [] (wss h)).

End Bridge.

(** ** The fusion operations in the words of the design

    The design document describes the hardware side of a dial by two
    operations on a pair of contributions.  They are written here from
    its wording, to be compared with the handlers above. *)

Module Design.

Record DialAngle := {
  mouseContribution : Q;
  hardwareContribution : Q
}.

Definition effectiveAngle (dial : DialAngle) : Q :=
  mouseContribution dial + hardwareContribution dial.

Definition applyHardwareTick (dial : DialAngle)
    (previousCounter newCounter : Z) : DialAngle :=
  if bool_decide (newCounter = previousCounter) then dial
  else
    let delta := newCounter - previousCounter in
    if bool_decide (Z.abs delta > 100) then
      {| mouseContribution := mouseContribution dial;
         hardwareContribution := (inject_Z newCounter * Frame.gain)%Q |}
    else
      {| mouseContribution := mouseContribution dial;
         hardwareContribution :=
           (hardwareContribution dial + inject_Z delta * Frame.gain)%Q |}.

Definition resync (dial : DialAngle) (counter : Z) : DialAngle :=
  {| mouseContribution := mouseContribution dial;
     hardwareContribution := (inject_Z counter * Frame.gain)%Q |}.

(** The two dials of the component. *)
Definition leftDial (s : Frame.State) : DialAngle :=
  {| mouseContribution := Frame.mouseRotation s;
     hardwareContribution := Frame.encoderRotation s |}.

Definition rightDial (s : Frame.State) : DialAngle :=
  {| mouseContribution := Frame.rightMouseRotation s;
     hardwareContribution := Frame.rightEncoderRotation s |}.

End Design.

(** ** Notions about runs of the component *)

Module Session.

Import Frame.

(** A fetch in flight that predicts a new last word. *)
Definition is_prediction (f : Pending) : bool :=
  match closure f with
  | PredictThen _ => true
  | VariationsThen _ _ => false
  end.

Fixpoint predictions (fs : list Pending) : nat :=
  match fs with
  | [] => 0
  | f :: fs => ((if is_prediction f then 1 else 0) + predictions fs)%nat
  end.

(** [isPredicting] tells whether a prediction is in flight, and there is
    never more than one. *)
Definition one_prediction (s : State) : Prop :=
  predictions (pending s) = if isPredicting s then 1%nat else 0%nat.

(** The counters of the last encoder message among the events, or
    [start] when there is none. *)
Definition last_counters (es : list Event) (start : Z * Z) : Z * Z :=
  foldl (λ counters e,
           match e with
           | WsMessage (Encoder encoder1 encoder2) => (encoder1, encoder2)
           | _ => counters
           end)
        start es.

(** The counters the message handler has recorded. *)
Definition recorded (s : State) : Z * Z :=
  (lastEncoder1Ref s, lastEncoder2Ref s).

(** What the right dial has turned and navigation has not consumed is
    less than one step. *)
Definition under_a_step (s : State) : Prop := (Qabs (residual s) < 60)%Q.

End Session.

(** ** The sentence on screen *)

Module Display.

Import Frame.

(** [a.slice(start, end)], with the indices counted from the end when
    negative and cut at the bounds. *)
Definition js_slice {A} (a : list A) (start end_ : Z) : list A :=
  let len := js_length a in
  let bound i := if i <? 0 then Z.max (len + i) 0 else Z.min i len in
  let k := bound start in
  let final := bound end_ in
  take (Z.to_nat (final - k)) (drop (Z.to_nat k) a).

(** [const maxVisible = 6]. *)
Definition maxVisible : Z := 6.

(** [start] and [end] of the words shown. *)
Definition window (selectedWordIndex wordsLength : Z) : Z * Z :=
  let half := maxVisible / 2 in
  let start := Z.max 0 (selectedWordIndex - half) in
  let end_ := Z.min wordsLength (start + maxVisible) in
  let start :=
    if end_ - start <? maxVisible then Z.max 0 (end_ - maxVisible)
    else start in
  (start, end_).

(** A word on screen: its index in the sentence, the word, and whether
    it is drawn as the selected one. *)
Record Span := {
  actualIndex : Z;
  shown : jsstr;
  selected : bool
}.

(** The spans the component renders. *)
Definition visible (s : State) : list Span :=
  let '(start, end_) := window (selectedWordIndex s) (js_length (words s)) in
  imap (λ i word,
          let actualIndex := start + Z.of_nat i in
          {| actualIndex := actualIndex;
             shown := word;
             selected := bool_decide (selectedWordIndex s = actualIndex) |})
       (js_slice (words s) start end_).

End Display.

(** ** The encoder sketch

    The Arduino program that reads the two rotary encoders and prints
    their counters.  An [int] has 16 bits and a [long] 32 bits on the
    board; the counters are [long] and wrap around. *)

Module Sketch.

(** The value of a [long] after an arithmetic step. *)
Definition wrap_long (z : Z) : Z := (z + 2 ^ 31) `mod` 2 ^ 32 - 2 ^ 31.

(** [encoderNPosition] and [encoderNLastState] of one encoder. *)
Record Encoder := {
  encoderPosition : Z;
  encoderLastState : Z
}.

(** [digitalRead(pin)]: [HIGH] is 1 and [LOW] is 0. *)
Definition digitalRead (level : bool) : Z := if level then 1 else 0.

(** The body shared by [encoder1ISR] and [readEncoder2], for the levels
    of the pins CLK and DT. *)
Definition readEncoder (clk dt : bool) (e : Encoder) : Encoder :=
  let clkState := digitalRead clk in
  let dtState := digitalRead dt in
  let currentState := Z.lor (Z.shiftl clkState 1) dtState in
  let lastState := encoderLastState e in
  if negb (lastState =? currentState) then
    let position :=
      if (lastState =? 0) && (currentState =? 1)
         || (lastState =? 1) && (currentState =? 3)
         || (lastState =? 3) && (currentState =? 2)
         || (lastState =? 2) && (currentState =? 0)
      then wrap_long (encoderPosition e + 1)
      else if (lastState =? 0) && (currentState =? 2)
              || (lastState =? 2) && (currentState =? 3)
              || (lastState =? 3) && (currentState =? 1)
              || (lastState =? 1) && (currentState =? 0)
      then wrap_long (encoderPosition e - 1)
      else encoderPosition e in
    {| encoderPosition := position; encoderLastState := currentState |}
  else e.

(** The read of [setup()]: the state of the pins, the counter at 0. *)
Definition setup (clk dt : bool) : Encoder :=
  {| encoderPosition := 0;
     encoderLastState := Z.lor (Z.shiftl (digitalRead clk) 1) (digitalRead dt) |}.

(** One decimal digit. *)
Definition digit_char (d : Z) : ascii := ascii_of_nat (48 + Z.to_nat d).

(** [Print::printNumber(n, 10)]: the digits of [n], the last one first
    computed, in front of what is already in the buffer.  Ten digits are
    enough for 32 bits. *)
Fixpoint printNumber (fuel : nat) (n : Z) (buffer : string) : string :=
  match fuel with
  | O => buffer
  | S fuel =>
      let buffer := String (digit_char (n `mod` 10)) buffer in
      if n / 10 =? 0 then buffer else printNumber fuel (n / 10) buffer
  end.

(** [Serial.print(n)] for a [long]: a minus sign in front of the digits
    of a negative number. *)
Definition print_long (n : Z) : string :=
  if n <? 0 then ("-" ++ printNumber 10 (- n) "")%string
  else printNumber 10 n ""%string.

(** What one pass of [loop()] prints before the line end ["\r\n"], which
    the line parser of the server takes away. *)
Definition loop_line (encoder1Position encoder2Position : Z) : string :=
  ("E1:" ++ print_long encoder1Position
   ++ ",E2:" ++ print_long encoder2Position)%string.

(** A line without white space. *)
Definition no_space (s : string) : Prop :=
  Forall (λ c, Bridge.is_space c = false) (list_ascii_of_string s).

(** *** The signal of a rotary encoder

    The two contacts open and close a quarter of a period apart: turning
    clockwise the state of (CLK, DT) goes 00, 01, 11, 10 and round
    again, as the comment in the sketch has it.  [phase] counts the
    quarter periods turned. *)

Definition pins (phase : Z) : bool * bool :=
  match phase `mod` 4 with
  | 0 => (false, false)
  | 1 => (false, true)
  | 2 => (true, true)
  | _ => (true, false)
  end.

(** The 2-bit state for a phase. *)
Definition state_of (phase : Z) : Z :=
  Z.lor (Z.shiftl (digitalRead (pins phase).1) 1) (digitalRead (pins phase).2).

(** The encoder polled after each of the steps of a turn, as
    [readEncoder2] is when [loop()] comes round at least once a quarter
    period; a step is +1 (clockwise), -1 or 0. *)
Fixpoint polled (phase : Z) (steps : list Z) (e : Encoder) : Encoder :=
  match steps with
  | [] => e
  | d :: steps =>
      let phase := phase + d in
      polled phase steps (readEncoder (pins phase).1 (pins phase).2 e)
  end.

(** The encoder read at the changes of CLK only, as [encoder1ISR] is:
    [attachInterrupt(digitalPinToInterrupt(ENCODER1_CLK), encoder1ISR,
    CHANGE)]. *)
Fixpoint on_clk_change (phase : Z) (steps : list Z) (e : Encoder) : Encoder :=
  match steps with
  | [] => e
  | d :: steps =>
      let before := (pins phase).1 in
      let phase := phase + d in
      let e :=
        if negb (eqb before (pins phase).1)
        then readEncoder (pins phase).1 (pins phase).2 e
        else e in
      on_clk_change phase steps e
  end.

(** The quarter periods turned in all. *)
Definition turned_by (steps : list Z) : Z := foldr Z.add 0 steps.

End Sketch.

(** ** From the server to the component

    What joins the line handler of the server to the message handler of
    the component: the WebSocket server of the routes and the JSON text
    of a message. *)

Module Relay.

Import Frame Bridge.

(** [wss.on("connection", ws => ws.send(...))]: the stored pair goes to
    a new viewer at once. *)
Definition on_connection (h : Handler) (c : Client) : Send :=
  {| receiver := ident c; data := currentData h |}.

(** The event a send is for the component that receives it:
    [JSON.stringify({type: "encoder", data})] read back by [JSON.parse],
    with [message.type === "encoder"] and [message.data] an object. *)
Definition received (snd : Send) : Event :=
  WsMessage (Encoder (encoder1 (data snd)) (encoder2 (data snd))).

(** The sends of a list that go to one viewer. *)
Definition sent_to (c : Client) (out : list Send) : list Send :=
  filter (λ snd, receiver snd = ident c) out.

(** The pair a viewer holds that keeps the data of the last message it
    got. *)
Definition view (c : Client) (held : EncoderData) (out : list Send)
    : EncoderData :=
  foldl (λ held snd, data snd) held (sent_to c out).

(** The counter pairs of the lines that parse, one for each such line. *)
Definition pairs (lines : list string) : list EncoderData :=
  omap (λ line, parse (trim line)) lines.

(** The message the component would get if a pair were sent as it is. *)
Definition forwarded (d : EncoderData) : Event :=
  WsMessage (Encoder (encoder1 d) (encoder2 d)).

(** The component has the counters of the handler and is past its
    resynchronisation. *)
Definition in_sync (h : Handler) (s : State) : Prop :=
  needsSync s = false
  ∧ lastEncoder1Ref s = encoder1 (currentData h)
  ∧ lastEncoder2Ref s = encoder2 (currentData h).

End Relay.

(** ** The variant provider route

    [POST /api/word-variations] of the server: the sentence it puts in
    the prompt, and the list of variants it reads from the answer of the
    language model. *)

Module Routes.

Import Frame.

(** [context.split(' ')], [words[position] = '[MASK]'],
    [words.join(' ')]; without a context the sentence is the word. *)
Definition maskedSentence (q : Request) : string :=
  if bool_decide (context q ≠ EmptyString) then
    let words := Some <$> js_split (context q) EmptyString in
    let words := js_set words (position q) (Some "[MASK]"%string) in
    js_join words
  else default EmptyString (word q).

(** [text.split(',')]. *)
Fixpoint split_commas (s : string) (cur : string) : list string :=
  match s with
  | EmptyString => [cur]
  | String c s' =>
      if bool_decide (c = ","%char) then cur :: split_commas s' EmptyString
      else split_commas s' (cur +:+ String c EmptyString)
  end.

(** [text.split(',').map(v => v.trim()).filter(v => v.length > 0)]. *)
Definition variations_of (text : string) : list string :=
  filter (λ v, v ≠ EmptyString) (Bridge.trim <$> split_commas text EmptyString).

(** A variant as the prompt asks for it: not empty, without white space
    and without a comma. *)
Definition clean_variant (v : string) : Prop :=
  v ≠ EmptyString
  ∧ Forall (λ c, Bridge.is_space c = false ∧ c ≠ ","%char)
      (list_ascii_of_string v).

(** A string without a space. *)
Definition spaceless (w : string) : Prop :=
  Forall (λ c, c ≠ " "%char) (list_ascii_of_string w).

(** A word as the component needs it: not empty and without a space. *)
Definition plain_word (w : string) : Prop := w ≠ EmptyString ∧ spaceless w.

End Routes.

(** ** The choice of the serial port *)

Module Ports.

(** The lower-case letter of an upper-case one (the [i] flag). *)
Definition lower (c : ascii) : ascii :=
  let n := nat_of_ascii c in
  if (65 <=? n)%nat && (n <=? 90)%nat then ascii_of_nat (n + 32) else c.

(** A literal at the start of [s], letters compared without case: what
    follows it. *)
Fixpoint match_lit_i (lit s : string) : option string :=
  match lit, s with
  | EmptyString, _ => Some s
  | String a lit', String b s' =>
      if bool_decide (lower a = lower b) then match_lit_i lit' s' else None
  | String _ _, EmptyString => None
  end.

(** [/lit/i.test(s)]: the literal somewhere in [s]. *)
Fixpoint test_i (lit s : string) : bool :=
  match match_lit_i lit s with
  | Some _ => true
  | None =>
      match s with
      | String _ s' => test_i lit s'
      | EmptyString => false
      end
  end.

(** [/^COM\d+$/i.test(s)]. *)
Definition test_com (s : string) : bool :=
  match match_lit_i "COM" s with
  | Some r =>
      let '(d, r) := Bridge.span_digits r in
      negb (bool_decide (d = EmptyString)) && bool_decide (r = EmptyString)
  | None => false
  end.

(** [arduinoPatterns]. *)
Definition arduinoPatterns : list (string → bool) :=
  [test_i "usbmodem"; test_i "usbserial"; test_i "ttyUSB"; test_i "ttyACM";
   test_com].

(** The inner loop: some pattern matches the port. *)
Definition looks_like_arduino (port : string) : bool :=
  existsb (λ pattern, pattern port) arduinoPatterns.

(** The outer loop: the first port that some pattern matches. *)
Fixpoint first_match (ports : list string) : option string :=
  match ports with
  | [] => None
  | port :: ports =>
      if looks_like_arduino port then Some port else first_match ports
  end.

(** [findArduinoPort()], for the value of [process.env.ARDUINO_PORT] and
    the paths [listSerialPorts()] gives. *)
Definition findArduinoPort (envPort : option string) (ports : list string)
    : option string :=
  match envPort with
  | Some (String c p) => Some (String c p)
  | _ =>
      if bool_decide (length ports = 0%nat) then None
      else
        match first_match ports with
        | Some port => Some port
        | None =>
            if bool_decide (0 < length ports)%nat then head ports else None
        end
  end.

End Ports.

(** * Properties of the component *)

Module FrameFacts.

Import Frame Design.

(** ** Effects leave the dials alone *)

Ltac split_conditions :=
  repeat match goal with
    | |- context [bool_decide ?P] => destruct (bool_decide P) eqn:?
    | |- context [if ?b then _ else _] => destruct b eqn:?
    end.

Lemma effect_reset_fusion r s : fusion (effect_reset r s) = fusion s.
Proof. reflexivity. Qed.

Lemma effect_variation_fusion r s : fusion (effect_variation r s) = fusion s.
Proof. unfold effect_variation. split_conditions; reflexivity. Qed.

Lemma effect_navigation_fusion r s :
  fusion (effect_navigation r s) = fusion s.
Proof. unfold effect_navigation. split_conditions; reflexivity. Qed.

Lemma effect_predict_fusion r s : fusion (effect_predict r s) = fusion s.
Proof. unfold effect_predict. split_conditions; reflexivity. Qed.

Lemma run_fusion c e r s :
  (∀ r s, fusion (e r s) = fusion s) → fusion (run c e r s) = fusion s.
Proof. intros He. unfold run. destruct c; [apply He | reflexivity]. Qed.

Lemma flush_fusion p r : fusion (flush p r) = fusion r.
Proof.
  unfold flush, flush_with.
  rewrite !run_fusion;
    auto using effect_reset_fusion, effect_variation_fusion,
      effect_navigation_fusion, effect_predict_fusion.
Qed.

Lemma settle_fusion n p r : fusion (settle n p r) = fusion r.
Proof.
  revert p r. induction n as [|n IH]; intros p r; simpl; [reflexivity|].
  rewrite IH. apply flush_fusion.
Qed.

Lemma dispatch_fusion e s : fusion (dispatch e s) = fusion (handle e s).
Proof. apply settle_fusion. Qed.

(** The effective angle of the design is the angle the component
    renders and its effects read. *)
Lemma effectiveAngle_is_rotation s :
  effectiveAngle (leftDial s) = rotation s
  ∧ effectiveAngle (rightDial s) = rightRotation s.
Proof. split; reflexivity. Qed.

Lemma fusion_dials a b :
  fusion a = fusion b → leftDial a = leftDial b ∧ rightDial a = rightDial b.
Proof. unfold fusion, leftDial, rightDial. intros H. split; congruence. Qed.

(** ** Renders without a changed dependency *)

Lemma same_deps_refl r : same_deps r r.
Proof. repeat split; reflexivity. Qed.

Lemma flush_same_deps p r : same_deps p r → flush p r = r.
Proof.
  intros (Hi & Hl & Hr & Hw & Hp). unfold flush.
  unfold flush_with.
  rewrite Hi, Hw, Hp, eqb_reflx, !bool_decide_eq_true_2 by reflexivity.
  apply Qeq_bool_iff in Hl, Hr. rewrite Hl, Hr. reflexivity.
Qed.

Lemma settle_same_deps n p r : same_deps p r → settle n p r = r.
Proof.
  revert p r. induction n as [|n IH]; intros p r H; simpl; [reflexivity|].
  rewrite (flush_same_deps p r H). apply IH, same_deps_refl.
Qed.

Lemma settle_S n p r : settle (S n) p r = settle n r (flush p r).
Proof. reflexivity. Qed.

Lemma settle_O p r : settle 0 p r = r.
Proof. reflexivity. Qed.

(** ** Renders come to rest *)

Lemma fusion_rotations a b :
  fusion a = fusion b →
  (rotation a == rotation b)%Q ∧ (rightRotation a == rightRotation b)%Q.
Proof.
  unfold fusion, rotation, rightRotation. intros H.
  injection H as -> -> -> -> _ _ _. split; reflexivity.
Qed.

Lemma flush_rotations p r :
  (rotation (flush p r) == rotation r)%Q
  ∧ (rightRotation (flush p r) == rightRotation r)%Q.
Proof. apply fusion_rotations, flush_fusion. Qed.

Lemma effect_reset_frame r s :
  words (effect_reset r s) = words s
  ∧ nav_state (effect_reset r s) = nav_state s
  ∧ isPredicting (effect_reset r s) = isPredicting s.
Proof. repeat split. Qed.

Lemma effect_variation_frame r s :
  nav_state (effect_variation r s) = nav_state s
  ∧ isPredicting (effect_variation r s) = isPredicting s.
Proof. unfold effect_variation. split_conditions; repeat split. Qed.

Lemma effect_navigation_frame r s :
  words (effect_navigation r s) = words s
  ∧ isPredicting (effect_navigation r s) = isPredicting s.
Proof. unfold effect_navigation. split_conditions; repeat split. Qed.

Lemma effect_predict_frame r s :
  words (effect_predict r s) = words s
  ∧ nav_state (effect_predict r s) = nav_state s
  ∧ (isPredicting (effect_predict r s) = isPredicting s
     ∨ isPredicting r = false ∧ isPredicting (effect_predict r s) = true).
Proof.
  unfold effect_predict. destruct (isPredicting r); simpl.
  - rewrite andb_false_r. auto.
  - destruct (_ <=? _); simpl; auto.
Qed.

Lemma run_frame {A} (f : State → A) c e r s :
  (∀ r s, f (e r s) = f s) → f (run c e r s) = f s.
Proof. intros He. unfold run. destruct c; [apply He|reflexivity]. Qed.

(** Without a change of the left angle the sentence is the same. *)
Lemma flush_words p r :
  (rotation p == rotation r)%Q → words (flush p r) = words r.
Proof.
  intros H. apply Qeq_bool_iff in H. unfold flush, flush_with. rewrite H.
  cbv zeta.
  rewrite (run_frame words) by (intros; apply effect_predict_frame).
  rewrite (run_frame words) by (intros; apply effect_navigation_frame).
  change (run (negb true) effect_variation r ?s) with s.
  rewrite (run_frame words) by (intros; apply effect_reset_frame).
  reflexivity.
Qed.

(** Without a change of the right angle or of the length the cursor and
    the consumed angle are the same. *)
Lemma flush_position p r :
  (rightRotation p == rightRotation r)%Q →
  js_length (words p) = js_length (words r) →
  nav_state (flush p r) = nav_state r.
Proof.
  intros H Hl. apply Qeq_bool_iff in H. unfold flush, flush_with.
  rewrite H, Hl.
  rewrite (bool_decide_eq_true_2 (js_length (words r) = js_length (words r)))
    by reflexivity.
  cbv zeta.
  rewrite (run_frame nav_state) by (intros; apply effect_predict_frame).
  change (run (negb true || negb true) effect_navigation r ?s) with s.
  rewrite (run_frame nav_state) by (intros; apply effect_variation_frame).
  rewrite (run_frame nav_state) by (intros; apply effect_reset_frame).
  reflexivity.
Qed.

(** An effect sets [isPredicting] only from false to true. *)
Lemma flush_predicting p r :
  isPredicting (flush p r) = isPredicting r
  ∨ isPredicting r = false ∧ isPredicting (flush p r) = true.
Proof.
  unfold flush, flush_with. cbv zeta.
  set (s3 := run _ effect_navigation r _).
  assert (H3 : isPredicting s3 = isPredicting r).
  { unfold s3.
    rewrite (run_frame isPredicting) by (intros; apply effect_navigation_frame).
    rewrite (run_frame isPredicting) by (intros; apply effect_variation_frame).
    rewrite (run_frame isPredicting) by (intros; apply effect_reset_frame).
    reflexivity. }
  unfold run at 1. destruct (_ || _ || _); [|left; exact H3].
  destruct (effect_predict_frame r s3) as (_ & _ & [H | [H1 H2]]).
  - left. rewrite H. exact H3.
  - right. auto.
Qed.

(** A render in which only [isPredicting] differs, and is set, runs no
    effect that does anything. *)
Lemma flush_at_rest p r :
  selectedWordIndex p = selectedWordIndex r →
  (rotation p == rotation r)%Q →
  (rightRotation p == rightRotation r)%Q →
  words p = words r →
  isPredicting p = isPredicting r ∨ isPredicting r = true →
  flush p r = r.
Proof.
  intros Hi Hl Hr Hw Hp.
  destruct (Bool.bool_dec (isPredicting p) (isPredicting r)) as [He|Hne].
  - apply flush_same_deps. repeat split; assumption.
  - destruct Hp as [Hp|Hp]; [contradiction|].
    apply Qeq_bool_iff in Hl, Hr. unfold flush, flush_with.
    rewrite Hi, Hw, Hl, Hr, !bool_decide_eq_true_2 by reflexivity.
    cbv zeta.
    change (run (negb true) ?e r ?s) with s.
    change (run (negb true || negb true) ?e r ?s) with s.
    unfold run. destruct (_ || _); [|reflexivity].
    unfold effect_predict. rewrite Hp, andb_false_r. reflexivity.
Qed.

(** Three renders after an event are enough: a fourth one, and any
    later one, finds nothing to do. *)
Theorem settle_stable n p r : settle (3 + n) p r = settle 3 p r.
Proof.
  change (settle (3 + n) p r)
    with (settle n (flush r (flush p r))
            (flush (flush p r) (flush r (flush p r)))).
  change (settle 3 p r) with (flush (flush p r) (flush r (flush p r))).
  set (s1 := flush p r). set (s2 := flush r s1). set (s3 := flush s1 s2).
  destruct (flush_rotations p r) as [L1 R1]. fold s1 in L1, R1.
  destruct (flush_rotations r s1) as [L2 R2]. fold s2 in L2, R2.
  destruct (flush_rotations s1 s2) as [L3 R3]. fold s3 in L3, R3.
  assert (W2 : words s2 = words s1).
  { apply flush_words. rewrite L1. reflexivity. }
  assert (W3 : words s3 = words s2).
  { apply flush_words. rewrite L2. reflexivity. }
  assert (P3 : nav_state s3 = nav_state s2).
  { apply flush_position; [rewrite R2; reflexivity | rewrite W2; reflexivity]. }
  assert (Hrest : flush s2 s3 = s3).
  { apply flush_at_rest.
    - injection P3 as -> _. reflexivity.
    - rewrite L3. reflexivity.
    - rewrite R3. reflexivity.
    - symmetry. exact W3.
    - destruct (flush_predicting s1 s2) as [H | [_ H]]; [left|right];
        fold s3 in H; congruence. }
  destruct n as [|n]; simpl; [reflexivity|].
  rewrite Hrest. apply settle_same_deps, same_deps_refl.
Qed.

(** ** Hardware ticks *)

Lemma encoder1_tick_left n s :
  leftDial (encoder1_tick n s)
  = applyHardwareTick (leftDial s) (lastEncoder1Ref s) n.
Proof.
  unfold encoder1_tick, applyHardwareTick.
  repeat case_bool_decide; try lia;
    destruct (Z.ltb_spec 100 (Z.abs (n - lastEncoder1Ref s)));
    try lia; reflexivity.
Qed.

Lemma encoder2_tick_right n s :
  rightDial (encoder2_tick n s)
  = applyHardwareTick (rightDial s) (lastEncoder2Ref s) n.
Proof.
  unfold encoder2_tick, applyHardwareTick.
  repeat case_bool_decide; try lia;
    destruct (Z.ltb_spec 100 (Z.abs (n - lastEncoder2Ref s)));
    try lia; reflexivity.
Qed.

Lemma encoder1_tick_right n s :
  rightDial (encoder1_tick n s) = rightDial s
  ∧ lastEncoder2Ref (encoder1_tick n s) = lastEncoder2Ref s.
Proof. unfold encoder1_tick. split_conditions; split; reflexivity. Qed.

Lemma encoder2_tick_left n s :
  leftDial (encoder2_tick n s) = leftDial s
  ∧ lastEncoder1Ref (encoder2_tick n s) = lastEncoder1Ref s.
Proof. unfold encoder2_tick. split_conditions; split; reflexivity. Qed.

(** C1.  A hardware tick on a dial is [applyHardwareTick] on that dial's
    pair of contributions, taken against the recorded counter: nothing
    when the counter is the recorded one, the absolute angle
    [newCounter * 3.6] when it is more than 100 detents away, and
    [delta * 3.6] more otherwise.  The mouse contribution is the one of
    before, and the other dial keeps its contributions and its counter.
    This holds for the block of each encoder, for a whole relay message
    once synchronised, and after the renders the message causes. *)
Theorem hardware_tick_is_applyHardwareTick (s : State) (n1 n2 : Z) :
  (leftDial (encoder1_tick n1 s)
     = applyHardwareTick (leftDial s) (lastEncoder1Ref s) n1
   ∧ rightDial (encoder1_tick n1 s) = rightDial s
   ∧ lastEncoder2Ref (encoder1_tick n1 s) = lastEncoder2Ref s)
  ∧ (rightDial (encoder2_tick n2 s)
       = applyHardwareTick (rightDial s) (lastEncoder2Ref s) n2
     ∧ leftDial (encoder2_tick n2 s) = leftDial s
     ∧ lastEncoder1Ref (encoder2_tick n2 s) = lastEncoder1Ref s)
  ∧ (needsSync s = false →
     let s' := dispatch (WsMessage (Encoder n1 n2)) s in
     leftDial s' = applyHardwareTick (leftDial s) (lastEncoder1Ref s) n1
     ∧ rightDial s' = applyHardwareTick (rightDial s) (lastEncoder2Ref s) n2).
Proof.
  split; [|split].
  - split; [apply encoder1_tick_left | apply encoder1_tick_right].
  - split; [apply encoder2_tick_right | apply encoder2_tick_left].
  - intros Hsync s'.
    destruct (fusion_dials _ _ (dispatch_fusion (WsMessage (Encoder n1 n2)) s))
      as [Hl Hr].
    fold s' in Hl, Hr. rewrite Hl, Hr. simpl handle. rewrite Hsync. split.
    + rewrite (proj1 (encoder2_tick_left _ _)). apply encoder1_tick_left.
    + rewrite encoder2_tick_right.
      destruct (encoder1_tick_right n1 s) as [-> ->]. reflexivity.
Qed.

(** The unfolded cases of [applyHardwareTick], for reading C1. *)
Lemma applyHardwareTick_cases dial previousCounter newCounter :
  mouseContribution (applyHardwareTick dial previousCounter newCounter)
    = mouseContribution dial
  ∧ (newCounter = previousCounter →
     applyHardwareTick dial previousCounter newCounter = dial)
  ∧ (Z.abs (newCounter - previousCounter) > 100 →
     hardwareContribution (applyHardwareTick dial previousCounter newCounter)
     = (inject_Z newCounter * gain)%Q)
  ∧ (newCounter ≠ previousCounter →
     Z.abs (newCounter - previousCounter) <= 100 →
     hardwareContribution (applyHardwareTick dial previousCounter newCounter)
     = (hardwareContribution dial
        + inject_Z (newCounter - previousCounter) * gain)%Q).
Proof.
  unfold applyHardwareTick.
  repeat split; intros; repeat case_bool_decide; try lia; reflexivity.
Qed.

Lemma hardware_tick_witness :
  needsSync (ws_onmessage (Encoder 0 0) mounted) = false
  ∧ let s := ws_onmessage (Encoder 0 0) mounted in
    let s' := dispatch (WsMessage (Encoder 5 150)) s in
    leftDial s' = applyHardwareTick (leftDial s) (lastEncoder1Ref s) 5
    ∧ rightDial s' = applyHardwareTick (rightDial s) (lastEncoder2Ref s) 150.
Proof.
  split; [reflexivity|].
  apply (hardware_tick_is_applyHardwareTick
           (ws_onmessage (Encoder 0 0) mounted) 5 150).
  reflexivity.
Defined.

(** ** Resynchronisation *)

(** C7.  The first encoder message of a new relay connection sets the
    hardware contribution of each dial to [3.6 * c] for its counter [c],
    whatever it was, and records [c] as the baseline; a tick that then
    reports the same counter changes nothing, for each dial and for the
    whole message. *)
Theorem resync_then_same_counter_is_noop (s : State) (c1 c2 : Z) :
  let s1 := ws_onmessage (Encoder c1 c2) (ws_onopen s) in
  leftDial s1 = resync (leftDial s) c1
  ∧ rightDial s1 = resync (rightDial s) c2
  ∧ hardwareContribution (leftDial s1) = (inject_Z c1 * (36 # 10))%Q
  ∧ hardwareContribution (rightDial s1) = (inject_Z c2 * (36 # 10))%Q
  ∧ lastEncoder1Ref s1 = c1
  ∧ lastEncoder2Ref s1 = c2
  ∧ encoder1_tick c1 s1 = s1
  ∧ encoder2_tick c2 s1 = s1
  ∧ ws_onmessage (Encoder c1 c2) s1 = s1
  ∧ fusion (dispatch (WsMessage (Encoder c1 c2)) s1) = fusion s1.
Proof.
  intros s1.
  assert (H1 : encoder1_tick c1 s1 = s1).
  { unfold encoder1_tick. simpl. case_bool_decide; [congruence|reflexivity]. }
  assert (H2 : encoder2_tick c2 s1 = s1).
  { unfold encoder2_tick. simpl. case_bool_decide; [congruence|reflexivity]. }
  assert (H3 : ws_onmessage (Encoder c1 c2) s1 = s1).
  { unfold ws_onmessage. change (needsSync s1) with false. cbv iota.
    rewrite H1. exact H2. }
  repeat split; try assumption.
  rewrite dispatch_fusion.
  change (handle (WsMessage (Encoder c1 c2)) s1)
    with (ws_onmessage (Encoder c1 c2) s1).
  rewrite H3. reflexivity.
Qed.

(** ** The variants of the word under the cursor *)



Lemma js_length_set a i v : js_length a <= js_length (js_set a i v).
Proof.
  unfold js_length, js_set.
  destruct (i <? 0); [lia|].
  destruct (Z.to_nat i <? length a)%nat.
  - rewrite length_insert. lia.
  - rewrite length_app. lia.
Qed.


Lemma floor_abs_div_nonneg x : 0 <= Qfloor (Qabs x / threshold).
Proof.
  change 0 with (Qfloor 0). apply Qfloor_resp_le.
  apply Qle_shift_div_l; [reflexivity|].
  rewrite Qmult_0_l. apply Qabs_nonneg.
Qed.




(** ** A variants fetch that comes back late *)

Lemma resolve_variations_same_deps s i f w c resp :
  pending s !! i = Some f → closure f = VariationsThen w c →
  same_deps s (handle (Resolve i resp) s).
Proof.
  intros Hi Hc. simpl. rewrite Hi, Hc. simpl.
  destruct resp as [vs| |]; simpl;
    [destruct (0 <? js_length vs)|..]; repeat split; reflexivity.
Qed.

(** C3, as the code has it.  A variants fetch issued at cursor [c] that
    completes when the cursor is elsewhere is applied all the same: the
    marker becomes [c] and, when variants came back, the variant list
    becomes the old word followed by them.  The sentence and the cursor
    are left as they are, and since the marker then names [c] and not the
    cursor, the next change of the left angle writes no word: it fetches
    the variants of the word under the cursor.  A fetch that fails
    changes nothing. *)
Theorem late_variations_are_marked_with_their_cursor
    (s : State) (i : nat) (f : Pending) (w : jsstr) (c : Z) (resp : Response) :
  pending s !! i = Some f →
  closure f = VariationsThen w c →
  selectedWordIndex s ≠ c →
  let s' := dispatch (Resolve i resp) s in
  words s' = words s
  ∧ selectedWordIndex s' = selectedWordIndex s
  ∧ variationsFetchedForIndex s'
    = match resp with
      | Rejected => variationsFetchedForIndex s
      | _ => Some c
      end
  ∧ currentVariations s'
    = match resp with
      | Variations (v :: vs) => w :: (Some <$> v :: vs)
      | _ => currentVariations s
      end
  ∧ (resp ≠ Rejected →
     ∀ t, effect_variation s' t
          = fetch {| word := js_get (words s) (selectedWordIndex s);
                     context := js_join (words s);
                     position := selectedWordIndex s |}
              (VariationsThen (js_get (words s) (selectedWordIndex s))
                 (selectedWordIndex s)) t).
Proof.
  intros Hi Hc Hne s'.
  assert (Hs' : s' = handle (Resolve i resp) s).
  { apply settle_same_deps. eapply resolve_variations_same_deps; eassumption. }
  assert (Hw : words s' = words s
               ∧ selectedWordIndex s' = selectedWordIndex s).
  { rewrite Hs'. simpl. rewrite Hi, Hc. simpl.
    destruct resp as [vs| |]; simpl;
      [destruct (0 <? js_length vs)|..]; split; reflexivity. }
  assert (Hm : variationsFetchedForIndex s'
    = match resp with
      | Rejected => variationsFetchedForIndex s
      | _ => Some c
      end).
  { rewrite Hs'. simpl. rewrite Hi, Hc. simpl.
    destruct resp as [vs| |]; reflexivity. }
  destruct Hw as [Hw Hx].
  split; [exact Hw|]. split; [exact Hx|]. split; [exact Hm|]. split.
  - rewrite Hs'. simpl. rewrite Hi, Hc. simpl.
    destruct resp as [[|v vs]| |]; reflexivity.
  - intros Hresp t. unfold effect_variation. rewrite Hm, Hw, Hx.
    rewrite bool_decide_eq_true_2; [reflexivity|].
    destruct resp; congruence.
Qed.

Lemma late_variations_witness :
  let s :=
    run_events [MouseDown 0; MouseMove 1; RightMouseDown 0; RightMouseMove 120]
      (resting (Some <$> ["a"; "b"; "c"; "d"; "e"; "f"]%string) 2) in
  variationsFetchedForIndex (dispatch (Resolve 0 (Variations ["X"%string])) s)
  = Some 2.
Proof.
  intros s.
  refine (proj1 (proj2 (proj2
    (late_variations_are_marked_with_their_cursor s 0
       {| request := {| word := Some "c"%string;
                        context := "a b c d e f";
                        position := 2 |};
          closure := VariationsThen (Some "c"%string) 2 |}
       (Some "c"%string) 2 (Variations ["X"%string]) _ _ _)))).
  - reflexivity.
  - reflexivity.
  - vm_compute. discriminate.
Defined.

(** A fetch issued at cursor 2 comes back when the cursor is at 4: the
    variant list and the marker that were reset for cursor 4 are both
    overwritten. *)
Lemma late_variations_overwrite_state :
  let s :=
    run_events [MouseDown 0; MouseMove 1; RightMouseDown 0; RightMouseMove 120]
      (resting (Some <$> ["a"; "b"; "c"; "d"; "e"; "f"]%string) 2) in
  let s' := dispatch (Resolve 0 (Variations ["X"%string])) s in
  closure <$> pending s = [VariationsThen (Some "c"%string) 2]
  ∧ selectedWordIndex s = 4
  ∧ currentVariations s = [Some "e"%string]
  ∧ variationsFetchedForIndex s = None
  ∧ currentVariations s' = [Some "c"; Some "X"]%string
  ∧ variationsFetchedForIndex s' = Some 2
  ∧ currentVariations s' ≠ currentVariations s
  ∧ variationsFetchedForIndex s' ≠ variationsFetchedForIndex s.
Proof. vm_compute. repeat split; discriminate. Qed.

(** ** Right-dial navigation *)

Lemma floor_div_bounds (x : Q) :
  (inject_Z (Qfloor (x / threshold)) * 60 <= x
   ∧ x < (inject_Z (Qfloor (x / threshold)) + 1) * 60)%Q.
Proof.
  pose proof (Qfloor_le (x / threshold)) as Hle.
  pose proof (Qlt_floor (x / threshold)) as Hlt.
  rewrite inject_Z_plus in Hlt.
  assert (Hx : (x == x / threshold * 60)%Q) by (unfold threshold; field).
  set (q := (x / threshold)%Q) in *. clearbody q.
  change (inject_Z 1) with 1%Q in Hlt.
  split; lra.
Qed.

Lemma Qpositive_true x : Qpositive x = true ↔ (0 < x)%Q.
Proof.
  unfold Qpositive. rewrite negb_true_iff.
  destruct (Qle_bool x 0) eqn:H.
  - apply Qle_bool_iff in H. split; [discriminate|]. intros. lra.
  - split; [|reflexivity]. intros _.
    destruct (Qlt_le_dec 0 x) as [|Hle]; [assumption|].
    apply Qle_bool_iff in Hle. congruence.
Qed.

Lemma Qpositive_false x : Qpositive x = false ↔ (x <= 0)%Q.
Proof.
  split.
  - intros H. destruct (Qlt_le_dec 0 x) as [Hlt|]; [|assumption].
    apply Qpositive_true in Hlt. congruence.
  - intros H. destruct (Qpositive x) eqn:E; [|reflexivity].
    apply Qpositive_true in E. lra.
Qed.

Lemma move_index_unclamped steps direction wordsLength prev :
  0 <= prev + steps * direction < wordsLength →
  move_index steps direction wordsLength prev = prev + steps * direction.
Proof.
  intros H. unfold move_index.
  destruct (Z.ltb_spec (prev + steps * direction) 0); [lia|].
  destruct (Z.leb_spec wordsLength (prev + steps * direction)); [lia|].
  reflexivity.
Qed.

(** Linear arithmetic on angles, with the constants of the effect
    spelled out. *)
Ltac angle_arith :=
  unfold threshold, residual in *;
  change (inject_Z 1) with 1%Q in *;
  change (inject_Z (-1)) with (-1)%Q in *;
  change (inject_Z 0) with 0%Q in *;
  lra.

(** One run of the navigation effect: the step taken, the angle consumed
    for it, and what is left over. *)
Lemma navigation_spec (r : State) :
  let s' := effect_navigation r r in
  rightRotation s' = rightRotation r
  ∧ words s' = words r
  ∧ (0 <= newIndex r < js_length (words r) →
     selectedWordIndex s' = newIndex r)
  ∧ (lastRightRotationRef s'
     == lastRightRotationRef r
        + 60 * inject_Z (newIndex r - selectedWordIndex r))%Q
  ∧ (Qabs (residual s') < 60)%Q
  ∧ ((0 <= residual r)%Q → (0 <= residual s')%Q)
  ∧ ((residual r <= 0)%Q → (residual s' <= 0)%Q).
Proof.
  unfold effect_navigation, newIndex.
  fold (residual r).
  destruct (floor_div_bounds (Qabs (residual r))) as [Hlo Hhi].
  pose proof (floor_abs_div_nonneg (residual r)) as Hnn.
  set (k := Qfloor (Qabs (residual r) / threshold)) in *. clearbody k.
  destruct (Z.ltb_spec 0 k) as [Hpos|Hzero].
  - (* at least one step *)
    assert (Hk : (1 <= inject_Z k)%Q).
    { change 1%Q with (inject_Z 1). rewrite <- Zle_Qle. lia. }
    set (direction := if Qpositive (residual r) then 1 else -1).
    set (s' := set_lastRightRotationRef _ _).
    assert (Hres : (residual s'
                    == residual r - inject_Z k * 60 * inject_Z direction)%Q).
    { unfold s', residual, rightRotation. simpl. unfold threshold. ring. }
    assert (Hmove : (inject_Z (selectedWordIndex r + k * direction
                               - selectedWordIndex r)
                     == inject_Z k * inject_Z direction)%Q).
    { rewrite <- inject_Z_mult. f_equiv. lia. }
    cbv zeta. rewrite Hres, Hmove.
    split; [reflexivity|]. split; [reflexivity|].
    split; [intros H; apply move_index_unclamped, H|].
    split; [unfold s'; simpl; unfold threshold; ring|].
    unfold direction. destruct (Qpositive (residual r)) eqn:Hdir.
    + apply Qpositive_true in Hdir.
      rewrite (Qabs_pos (residual r)) in Hlo, Hhi by lra.
      repeat split; [apply Qabs_case; intros| |]; intros; angle_arith.
    + apply Qpositive_false in Hdir.
      rewrite (Qabs_neg (residual r)) in Hlo, Hhi by exact Hdir.
      repeat split; [apply Qabs_case; intros| |]; intros; angle_arith.
  - (* less than a step: nothing is done *)
    assert (k = 0) by lia. subst k. cbv zeta.
    rewrite Z.mul_0_l, Z.add_0_r, Z.sub_diag.
    split; [reflexivity|]. split; [reflexivity|].
    split; [reflexivity|]. split; [angle_arith|].
    split; [angle_arith|]. auto.
Qed.




Lemma floor_unique (x : Q) (n : Z) :
  (inject_Z n * 60 <= x)%Q → (x < (inject_Z n + 1) * 60)%Q →
  Qfloor (x / 60) = n.
Proof.
  intros Hlo Hhi.
  destruct (floor_div_bounds x) as [Flo Fhi]. unfold threshold in *.
  set (m := Qfloor (x / 60)) in *. clearbody m.
  assert (H1 : (inject_Z n < inject_Z (m + 1))%Q).
  { rewrite inject_Z_plus. change (inject_Z 1) with 1%Q. lra. }
  assert (H2 : (inject_Z m < inject_Z (n + 1))%Q).
  { rewrite inject_Z_plus. change (inject_Z 1) with 1%Q. lra. }
  rewrite <- Zlt_Qlt in H1, H2. lia.
Qed.

(** ** A drag of the right dial is a sequence of angle changes *)

Lemma flush_pointer p r : pointer (flush p r) = pointer r.
Proof.
  unfold flush, flush_with. cbv zeta.
  rewrite !(run_frame pointer); [reflexivity|..]; intros r0 s0.
  - reflexivity.
  - unfold effect_variation. split_conditions; reflexivity.
  - unfold effect_navigation. split_conditions; reflexivity.
  - unfold effect_predict. split_conditions; reflexivity.
Qed.

Lemma settle_pointer n p r : pointer (settle n p r) = pointer r.
Proof.
  revert p r. induction n as [|n IH]; intros p r; simpl; [reflexivity|].
  rewrite IH. apply flush_pointer.
Qed.












(** ** The cursor stays in the sentence *)






















(** ** Extending the sentence *)

Lemma flush_words_same p r :
  words p = words r → flush p r = flush_with false p r.
Proof.
  intros H. unfold flush. rewrite bool_decide_eq_true_2 by exact H.
  reflexivity.
Qed.

Lemma flush_words_longer p r :
  length (words p) ≠ length (words r) → flush p r = flush_with true p r.
Proof.
  intros H. unfold flush. rewrite bool_decide_eq_false_2; [reflexivity|].
  intros E. apply H. rewrite E. reflexivity.
Qed.

(** Evaluation of a render whose words are not all known: the test on
    [words] is settled by the shape of the two lists, the rest by
    computation. *)
Ltac eval_flush :=
  match goal with
  | |- context [flush ?p ?r] =>
      let E := fresh in
      eassert (E : flush p r = _)
        by (first [ rewrite flush_words_same by reflexivity
                  | rewrite flush_words_longer by (vm_compute; discriminate) ];
            vm_compute; reflexivity);
      rewrite E; clear E
  end.

Ltac eval_settle := repeat (rewrite settle_S; eval_flush); rewrite settle_O.

(** Evaluation of the innermost [dispatch] of the goal. *)
Ltac eval_dispatch :=
  match goal with
  | |- context [dispatch ?e ?s] =>
      lazymatch s with
      | context [dispatch _ _] => fail
      | _ => idtac
      end;
      let E := fresh in
      eassert (E : dispatch e s = _)
        by (unfold dispatch, renders;
            let h := eval vm_compute in (handle e s) in
            change (handle e s) with h;
            eval_settle; reflexivity);
      rewrite E; clear E
  end.

(** C4.  On any sentence of three words with the cursor on the last
    one, turning the right dial by 60 degrees puts the cursor at 3, the
    length of the sentence, and sends one request, for the sentence
    followed by [[MASK]].  When the answer starts with [word4], the
    sentence has four words with [word4] at index 3, the cursor is 3, the
    variants are the whole answer, the marker is the old length 3, and
    no prediction is in flight. *)
Theorem extension_round_trip (w1 w2 w3 : string) (rest : list string) :
  let sentence := [Some w1; Some w2; Some w3] in
  let s0 := resting sentence 2 in
  let s1 := run_events [RightMouseDown 0; RightMouseMove 60] s0 in
  let s2 := dispatch (Resolve 0 (Variations ("word4"%string :: rest))) s1 in
  (rightRotation s1 - rightRotation s0 == 60)%Q
  ∧ words s1 = sentence
  ∧ selectedWordIndex s1 = 3
  ∧ isPredicting s1 = true
  ∧ pending s1
    = [ {| request :=
             {| word := Some "[PREDICT]"%string;
                context := (w1 +:+ " " +:+ w2 +:+ " " +:+ w3) +:+ " [MASK]";
                position := 3 |};
           closure := PredictThen 3 |} ]
  ∧ words s2 = [Some w1; Some w2; Some w3; Some "word4"%string]
  ∧ selectedWordIndex s2 = 3
  ∧ js_get (words s2) (selectedWordIndex s2) = Some "word4"%string
  ∧ currentVariations s2 = Some <$> "word4"%string :: rest
  ∧ variationsFetchedForIndex s2 = Some 3
  ∧ isPredicting s2 = false
  ∧ pending s2 = [].
Proof.
  intros sentence s0 s1 s2. subst s2 s1 s0 sentence.
  unfold run_events, resting.
  do 3 eval_dispatch.
  repeat split; reflexivity.
Qed.

(** A prediction that comes back without a variant only clears the
    flag; at the sentinel the prediction effect of the next render then
    asks again. *)
Lemma prediction_without_variants_asks_again
    (s : State) (n : Z) (resp : Response) :
  resp = Variations [] ∨ resp = NoVariations →
  js_length (words s) <= selectedWordIndex s →
  let r := predict_then n resp s in
  r = setIsPredicting false s
  ∧ effect_predict r r
    = fetch {| word := Some "[PREDICT]"%string;
               context := js_join (words s) +:+ " [MASK]";
               position := js_length (words s) |}
        (PredictThen (js_length (words s))) (setIsPredicting true r).
Proof.
  intros Hresp Hcursor r.
  assert (Hr : r = setIsPredicting false s).
  { unfold r. destruct Hresp as [-> | ->]; reflexivity. }
  split; [exact Hr|]. rewrite Hr. unfold effect_predict. simpl.
  destruct (Z.leb_spec (js_length (words s)) (selectedWordIndex s)); [|lia].
  reflexivity.
Qed.

(** C5, on the code.  With the prediction for a sentence of three words
    in flight and the cursor at 3: an answer with no variant leaves the
    sentence as it is but also leaves the cursor at 3; its callback
    clears the flag, and the renders that follow set it again and send
    the same request, so the component is back in the state it was in.
    A rejected fetch moves the cursor back to 2 and clears the flag. *)
Theorem prediction_failure_outcomes (w1 w2 w3 : string) :
  let sentence := [Some w1; Some w2; Some w3] in
  let s1 :=
    run_events [RightMouseDown 0; RightMouseMove 60] (resting sentence 2) in
  (let h := handle (Resolve 0 (Variations [])) s1 in
   words h = sentence ∧ selectedWordIndex h = 3 ∧ isPredicting h = false)
  ∧ dispatch (Resolve 0 (Variations [])) s1 = s1
  ∧ dispatch (Resolve 0 NoVariations) s1 = s1
  ∧ selectedWordIndex s1 = 3
  ∧ isPredicting s1 = true
  ∧ (let s2 := dispatch (Resolve 0 Rejected) s1 in
     words s2 = sentence
     ∧ selectedWordIndex s2 = 2
     ∧ isPredicting s2 = false
     ∧ pending s2 = []).
Proof.
  intros sentence s1. subst s1 sentence.
  unfold run_events, resting.
  do 2 eval_dispatch.
  split; [repeat split; reflexivity|].
  split; [eval_dispatch; reflexivity|].
  split; [eval_dispatch; reflexivity|].
  do 2 (split; [reflexivity|]).
  eval_dispatch. repeat split; reflexivity.
Qed.

End FrameFacts.

(** * Properties of the serial bridge *)

Module BridgeFacts.

Import Bridge.

#[local] Open Scope string_scope.

(** ** Strings *)

Lemma append_cons (x : ascii) (a b : string) :
  String x a ++ b = String x (a ++ b).
Proof. reflexivity. Qed.

Lemma append_assoc (a b c : string) : (a ++ b) ++ c = a ++ b ++ c.
Proof.
  induction a as [|x a IH]; [reflexivity|].
  rewrite !append_cons, IH. reflexivity.
Qed.

Lemma all_digits_cons c d :
  all_digits (String c d) ↔ is_digit c = true ∧ all_digits d.
Proof.
  unfold all_digits. simpl. split.
  - intros H. inversion H; subst. auto.
  - intros [Hc Hd]. constructor; assumption.
Qed.

Lemma all_digits_nil : all_digits "".
Proof. constructor. Qed.

(** ** The pieces of the pattern *)

Lemma match_lit_sound lit : ∀ s r, match_lit lit s = Some r → s = lit ++ r.
Proof.
  induction lit as [|a lit IH]; intros s r H; simpl in H.
  - injection H as ->. reflexivity.
  - destruct s as [|b s]; [discriminate|].
    case_bool_decide; [|discriminate]. subst b.
    rewrite (IH s r H). reflexivity.
Qed.

Lemma match_lit_complete lit r : match_lit lit (lit ++ r) = Some r.
Proof.
  induction lit as [|a lit IH]; [reflexivity|].
  rewrite append_cons. simpl.
  rewrite bool_decide_eq_true_2 by reflexivity. exact IH.
Qed.

Lemma span_digits_sound s :
  s = (span_digits s).1 ++ (span_digits s).2 ∧ all_digits (span_digits s).1.
Proof.
  induction s as [|c s [IH1 IH2]]; simpl.
  - split; [reflexivity|apply all_digits_nil].
  - destruct (is_digit c) eqn:Hc.
    + destruct (span_digits s) as [d r]. simpl in *. split.
      * rewrite IH1 at 1. reflexivity.
      * apply all_digits_cons. auto.
    + simpl. split; [reflexivity|apply all_digits_nil].
Qed.

(** A run of digits in front of anything is inside the run found. *)
Lemma span_digits_prefix d : ∀ x,
  all_digits d → ∃ d', (span_digits (d ++ x)).1 = d ++ d'.
Proof.
  induction d as [|c d IH]; intros x Hd; simpl.
  - eexists. reflexivity.
  - apply all_digits_cons in Hd as [Hc Hd]. rewrite Hc.
    destruct (IH x Hd) as [d' Hd'].
    destruct (span_digits (d ++ x)) as [e r]. simpl in *.
    exists d'. rewrite Hd'. reflexivity.
Qed.

(** A run of digits in front of a character that is no digit is the run
    found. *)
Lemma span_digits_exact d c x :
  all_digits d → is_digit c = false →
  span_digits (d ++ String c x) = (d, String c x).
Proof.
  intros Hd Hc. induction d as [|e d IH]; simpl.
  - rewrite Hc. reflexivity.
  - apply all_digits_cons in Hd as [He Hd]. rewrite He, (IH Hd). reflexivity.
Qed.

Lemma digit_not_minus c : is_digit c = true → c ≠ "-"%char.
Proof. intros H ->. discriminate H. Qed.

Lemma match_int_sound s g r :
  match_int s = Some (g, r) → s = g ++ r ∧ is_int g.
Proof.
  unfold match_int. intros H.
  destruct s as [|c s].
  - simpl in H. discriminate.
  - case_bool_decide as Hc.
    + subst c. destruct (span_digits_sound s) as [Hs Hd].
      destruct (span_digits s) as [d r']. simpl in *.
      case_bool_decide; [discriminate|]. injection H as <- <-.
      split; [rewrite Hs at 1; reflexivity|].
      exists d. auto.
    + destruct (span_digits_sound (String c s)) as [Hs Hd].
      destruct (span_digits (String c s)) as [d r']. simpl in *.
      case_bool_decide; [discriminate|]. injection H as <- <-.
      split; [exact Hs|]. exists d. auto.
Qed.

(** An integer in front of a character that is no digit is captured
    whole. *)
Lemma match_int_exact g c x :
  is_int g → is_digit c = false →
  match_int (g ++ String c x) = Some (g, String c x).
Proof.
  intros (d & Hne & Hd & [-> | ->]) Hc; unfold match_int.
  - destruct d as [|e d]; [done|]. rewrite append_cons.
    pose proof Hd as Hd'. apply all_digits_cons in Hd' as [He _].
    rewrite bool_decide_eq_false_2 by (apply digit_not_minus, He).
    rewrite <- append_cons.
    rewrite (span_digits_exact _ _ _ Hd Hc).
    rewrite bool_decide_eq_false_2 by discriminate. reflexivity.
  - rewrite append_assoc, append_cons.
    rewrite bool_decide_eq_true_2 by reflexivity.
    change ("" ++ d ++ String c x) with (d ++ String c x).
    rewrite (span_digits_exact _ _ _ Hd Hc).
    rewrite bool_decide_eq_false_2 by exact Hne. reflexivity.
Qed.

(** An integer in front of anything is captured, with the digits that
    may follow it. *)
Lemma match_int_prefix g x : is_int g → is_Some (match_int (g ++ x)).
Proof.
  intros (d & Hne & Hd & [-> | ->]); unfold match_int.
  - destruct d as [|e d]; [done|]. rewrite append_cons.
    pose proof Hd as Hd'. apply all_digits_cons in Hd' as [He _].
    rewrite bool_decide_eq_false_2 by (apply digit_not_minus, He).
    rewrite <- append_cons.
    destruct (span_digits_prefix (String e d) x Hd) as [d' Hd'].
    destruct (span_digits (String e d ++ x)) as [f r]. simpl in Hd'. subst f.
    rewrite bool_decide_eq_false_2 by discriminate. eexists. reflexivity.
  - rewrite append_assoc, append_cons.
    rewrite bool_decide_eq_true_2 by reflexivity.
    change ("" ++ d ++ x) with (d ++ x).
    destruct (span_digits_prefix d x Hd) as [d' Hd'].
    destruct (span_digits (d ++ x)) as [f r]. simpl in Hd'. subst f.
    rewrite bool_decide_eq_false_2.
    + eexists. reflexivity.
    + destruct d; [done|discriminate].
Qed.

Lemma match_here_sound s g1 g2 :
  match_here s = Some (g1, g2) →
  ∃ post, is_int g1 ∧ is_int g2 ∧ s = ("E1:" ++ g1 ++ ",E2:" ++ g2) ++ post.
Proof.
  unfold match_here. intros H.
  destruct (match_lit "E1:" s) as [r1|] eqn:H1;
    cbn [mbind option_bind] in H; [|discriminate].
  destruct (match_int r1) as [[a r2]|] eqn:H2;
    cbn [mbind option_bind] in H; [|discriminate].
  destruct (match_lit ",E2:" r2) as [r3|] eqn:H3;
    cbn [mbind option_bind] in H; [|discriminate].
  destruct (match_int r3) as [[b r4]|] eqn:H4;
    cbn [mbind option_bind] in H; [|discriminate].
  injection H as <- <-.
  apply match_lit_sound in H1, H3.
  apply match_int_sound in H2 as [H2 Ha], H4 as [H4 Hb].
  exists r4. split; [exact Ha|]. split; [exact Hb|].
  rewrite H1, H2, H3, H4.
  rewrite !append_assoc. reflexivity.
Qed.

Lemma match_here_complete f post :
  is_frame f → is_Some (match_here (f ++ post)).
Proof.
  intros (a & b & Ha & Hb & ->). unfold match_here.
  rewrite !append_assoc. rewrite match_lit_complete.
  cbn [mbind option_bind].
  change (",E2:" ++ b ++ post) with (String "," ("E2:" ++ b ++ post)).
  rewrite (match_int_exact a "," _ Ha) by reflexivity.
  cbn [mbind option_bind].
  change (String "," ("E2:" ++ b ++ post)) with (",E2:" ++ b ++ post).
  rewrite match_lit_complete. cbn [mbind option_bind].
  destruct (match_int_prefix b post Hb) as [[g2 r] ->].
  eexists. reflexivity.
Qed.

Lemma exec_cons c s :
  exec (String c s)
  = match match_here (String c s) with
    | Some m => Some m
    | None => exec s
    end.
Proof. reflexivity. Qed.

Lemma exec_sound s : ∀ m, exec s = Some m → has_frame s.
Proof.
  induction s as [|c s IH]; intros [g1 g2] H.
  - discriminate H.
  - rewrite exec_cons in H.
    destruct (match_here (String c s)) as [m|] eqn:E.
    + injection H as ->. apply match_here_sound in E as (post & Ha & Hb & E).
      exists "", ("E1:" ++ g1 ++ ",E2:" ++ g2), post.
      split; [exists g1, g2; auto | exact E].
    + destruct (IH _ H) as (pre & f & post & Hf & ->).
      exists (String c pre), f, post. split; [exact Hf|reflexivity].
Qed.

Lemma exec_complete s : has_frame s → is_Some (exec s).
Proof.
  intros (pre & f & post & Hf & ->).
  induction pre as [|c pre IH].
  - change ("" ++ f ++ post) with (f ++ post).
    destruct (match_here_complete f post Hf) as [m Hm].
    destruct (f ++ post) as [|c s].
    + discriminate Hm.
    + rewrite exec_cons, Hm. eexists. reflexivity.
  - rewrite append_cons, exec_cons.
    destruct (match_here _); [eexists; reflexivity|exact IH].
Qed.

Lemma parse_none_iff s : parse s = None ↔ ¬ has_frame s.
Proof.
  unfold parse. split.
  - intros H Hf. destruct (exec_complete s Hf) as [[g1 g2] E].
    rewrite E in H. discriminate.
  - intros H. destruct (exec s) as [[g1 g2]|] eqn:E; [|reflexivity].
    exfalso. apply H. eapply exec_sound, E.
Qed.

(** ** The line handler *)

Lemma span_digits_all d : all_digits d → span_digits d = (d, "").
Proof.
  intros Hd. induction d as [|e d IH]; [reflexivity|].
  apply all_digits_cons in Hd as [He Hd]. simpl. rewrite He, (IH Hd).
  reflexivity.
Qed.

Lemma match_int_all g : is_int g → match_int g = Some (g, "").
Proof.
  intros (d & Hne & Hd & [-> | ->]); unfold match_int.
  - destruct d as [|e d]; [done|]. cbv beta iota.
    pose proof Hd as Hd'. apply all_digits_cons in Hd' as [He _].
    rewrite bool_decide_eq_false_2 by (apply digit_not_minus, He).
    rewrite (span_digits_all _ Hd).
    rewrite bool_decide_eq_false_2 by discriminate. reflexivity.
  - change ("-" ++ d) with (String "-" d). cbv beta iota.
    rewrite bool_decide_eq_true_2 by reflexivity.
    rewrite (span_digits_all _ Hd).
    rewrite bool_decide_eq_false_2 by exact Hne. reflexivity.
Qed.

(** A line that is a frame parses to its two integers. *)
Lemma parse_frame a b :
  is_int a → is_int b →
  parse ("E1:" ++ a ++ ",E2:" ++ b)
  = Some {| encoder1 := parseInt a; encoder2 := parseInt b |}.
Proof.
  intros Ha Hb. unfold parse.
  change ("E1:" ++ a ++ ",E2:" ++ b)
    with (String "E" ("1:" ++ a ++ ",E2:" ++ b)).
  rewrite exec_cons.
  change (String "E" ("1:" ++ a ++ ",E2:" ++ b))
    with ("E1:" ++ a ++ ",E2:" ++ b).
  unfold match_here. rewrite match_lit_complete. cbn [mbind option_bind].
  change (",E2:" ++ b) with (String "," ("E2:" ++ b)).
  rewrite (match_int_exact a "," _ Ha) by reflexivity.
  cbn [mbind option_bind].
  change (String "," ("E2:" ++ b)) with (",E2:" ++ b).
  rewrite match_lit_complete. cbn [mbind option_bind].
  rewrite (match_int_all b Hb). reflexivity.
Qed.

Lemma feed_app l1 l2 h :
  feed (l1 ++ l2)%list h
  = let '(h1, out1) := feed l1 h in
    let '(h2, out2) := feed l2 h1 in
    (h2, (out1 ++ out2)%list).
Proof.
  revert h. induction l1 as [|l l1 IH]; intros h; simpl.
  - destruct (feed l2 h). reflexivity.
  - destruct (on_data l h) as [h1 o1]. rewrite IH.
    destruct (feed l1 h1) as [h2 o2]. destruct (feed l2 h2) as [h3 o3].
    rewrite app_assoc. reflexivity.
Qed.

(** The leftmost match in a line that is a frame is the frame. *)
Lemma exec_frame a b :
  is_int a → is_int b →
  exec ("E1:" ++ a ++ ",E2:" ++ b) = Some (a, b).
Proof.
  intros Ha Hb.
  change ("E1:" ++ a ++ ",E2:" ++ b)
    with (String "E" ("1:" ++ a ++ ",E2:" ++ b)).
  rewrite exec_cons.
  change (String "E" ("1:" ++ a ++ ",E2:" ++ b))
    with ("E1:" ++ a ++ ",E2:" ++ b).
  unfold match_here. rewrite match_lit_complete. cbn [mbind option_bind].
  change (",E2:" ++ b) with (String "," ("E2:" ++ b)).
  rewrite (match_int_exact a "," _ Ha) by reflexivity.
  cbn [mbind option_bind].
  change (String "," ("E2:" ++ b)) with (",E2:" ++ b).
  rewrite match_lit_complete. cbn [mbind option_bind].
  rewrite (match_int_all b Hb). reflexivity.
Qed.

(** C9, as the code has it.  The handler searches the trimmed line for
    the frame pattern [E1:<int>,E2:<int>], which has no anchors.  A line
    does not parse exactly when the pattern occurs nowhere in it; such a
    line is dropped: the handler keeps its counter pair and its viewers
    and sends nothing, and the lines before and after it are handled as
    if it had not been there.  A line in which the pattern occurs, be it
    a frame or a frame inside other text, parses to a counter pair, and
    the pair is stored when it differs from the stored one. *)
Theorem line_without_frame_is_dropped
    (h : Handler) (line : string) (before after : list string) :
  (parse (trim line) = None ↔ ¬ has_frame (trim line))
  ∧ (¬ has_frame (trim line) →
     on_data line h = (h, [])
     ∧ feed (before ++ line :: after)%list h
       = feed (before ++ after)%list h)
  ∧ (has_frame (trim line) →
     ∃ d, parse (trim line) = Some d
          ∧ (d ≠ currentData h →
             (on_data line h).1 = {| currentData := d; wss := wss h |})).
Proof.
  split; [apply parse_none_iff|]. split.
  - intros Hno. apply parse_none_iff in Hno.
    assert (Hdrop : ∀ h', on_data line h' = (h', [])).
    { intros h'. unfold on_data. rewrite Hno. reflexivity. }
    split; [apply Hdrop|].
    rewrite !feed_app. destruct (feed before h) as [h1 o1].
    simpl. rewrite Hdrop. destruct (feed after h1) as [h2 o2]. reflexivity.
  - intros Hf. destruct (parse (trim line)) as [d|] eqn:Hp.
    + exists d. split; [reflexivity|]. intros Hne.
      unfold on_data. rewrite Hp. cbv zeta.
      destruct h as [[c1 c2] w], d as [d1 d2]. simpl.
      destruct (bool_decide (c1 = d1)) eqn:E1;
        destruct (bool_decide (c2 = d2)) eqn:E2; try reflexivity.
      apply bool_decide_eq_true in E1, E2. subst. contradiction Hne.
      reflexivity.
    + exfalso. apply parse_none_iff in Hp. contradiction.
Qed.

Lemma line_without_frame_witness :
  let h := {| currentData := {| encoder1 := 4; encoder2 := 9 |};
              wss := Some [ {| ident := 1; readyState := OPEN |} ] |} in
  on_data "E1:12,E2:" h = (h, []).
Proof.
  intros h.
  refine (proj1 (proj1 (proj2
    (line_without_frame_is_dropped h "E1:12,E2:" [] [])) _)).
  apply parse_none_iff. reflexivity.
Defined.

(** A line that is not a frame, since text follows the second integer,
    yet holds one for the pattern: the handler stores the pair of the
    frame inside it and sends it to the viewer. *)
Lemma frame_inside_other_text_is_stored :
  let h := {| currentData := {| encoder1 := 4; encoder2 := 9 |};
              wss := Some [ {| ident := 1; readyState := OPEN |} ] |} in
  ¬ is_frame (trim "E1:12,E2:34abc")
  ∧ on_data "E1:12,E2:34abc" h
    = ({| currentData := {| encoder1 := 12; encoder2 := 34 |};
          wss := wss h |},
       [ {| receiver := 1;
            data := {| encoder1 := 12; encoder2 := 34 |} |} ]).
Proof.
  intros h. split; [|reflexivity].
  change (trim "E1:12,E2:34abc") with "E1:12,E2:34abc".
  intros (a & b & Ha & Hb & E).
  pose proof (exec_frame a b Ha Hb) as H. rewrite <- E in H.
  change (exec "E1:12,E2:34abc") with (Some ("12", "34")) in H.
  injection H as <- <-. discriminate E.
Qed.

(** C10.  When a line parses to a counter pair: if the pair is the
    stored one, the handler is unchanged and nothing is sent; if it is
    another one, it is stored and sent once to each viewer whose
    connection is open, and to no one else.  So something is sent exactly
    when the pair differs and a viewer is open. *)
Theorem broadcast_exactly_on_change
    (h : Handler) (line : string) (d : EncoderData) :
  parse (trim line) = Some d →
  (d = currentData h → on_data line h = (h, []))
  ∧ (d ≠ currentData h →
     on_data line h
     = ({| currentData := d; wss := wss h |},
        (λ c, {| receiver := ident c; data := d |}) <$> open_viewers h))
  ∧ ((on_data line h).2 ≠ [] ↔ d ≠ currentData h ∧ open_viewers h ≠ []).
Proof.
  intros Hparse.
  assert (Hsame : d = currentData h → on_data line h = (h, [])).
  { intros ->. unfold on_data. rewrite Hparse.
    rewrite !bool_decide_eq_true_2 by reflexivity. reflexivity. }
  assert (Hdiff : d ≠ currentData h →
    on_data line h
    = ({| currentData := d; wss := wss h |},
       (λ c, {| receiver := ident c; data := d |}) <$> open_viewers h)).
  { intros Hne. unfold on_data. rewrite Hparse.
    destruct (negb _ || negb _) eqn:Hc.
    - unfold broadcast, open_viewers. simpl. destruct (wss h); reflexivity.
    - exfalso. apply Hne. apply orb_false_iff in Hc as [H1 H2].
      apply negb_false_iff, bool_decide_eq_true_1 in H1, H2.
      destruct d, (currentData h). simpl in *. congruence. }
  split; [exact Hsame|]. split; [exact Hdiff|].
  assert (Hdec : d = currentData h ∨ d ≠ currentData h).
  { destruct d as [a1 a2], (currentData h) as [b1 b2].
    destruct (decide (a1 = b1)) as [->|]; [|right; congruence].
    destruct (decide (a2 = b2)) as [->|]; [left; reflexivity|].
    right. congruence. }
  destruct Hdec as [Heq|Hne].
  - rewrite (Hsame Heq). simpl. split; [done|]. intros [? _]. done.
  - rewrite (Hdiff Hne). simpl. split.
    + intros Hout. split; [exact Hne|]. intros E. apply Hout.
      rewrite E. reflexivity.
    + intros [_ Hopen] Hout. apply Hopen.
      destruct (open_viewers h); [reflexivity|discriminate Hout].
Qed.

Lemma broadcast_exactly_on_change_witness :
  let h := {| currentData := {| encoder1 := 4; encoder2 := 9 |};
              wss := Some [ {| ident := 1; readyState := OPEN |};
                            {| ident := 2; readyState := CLOSED |};
                            {| ident := 3; readyState := OPEN |} ] |} in
  on_data "E1:4,E2:9" h = (h, [])
  ∧ (on_data " E1:5,E2:-9 " h).2
    = [ {| receiver := 1; data := {| encoder1 := 5; encoder2 := -9 |} |};
        {| receiver := 3; data := {| encoder1 := 5; encoder2 := -9 |} |} ].
Proof.
  intros h. split.
  - refine (proj1 (broadcast_exactly_on_change h "E1:4,E2:9"
                     {| encoder1 := 4; encoder2 := 9 |} _) _);
      reflexivity.
  - rewrite (proj1 (proj2 (broadcast_exactly_on_change h " E1:5,E2:-9 "
                     {| encoder1 := 5; encoder2 := -9 |} eq_refl)));
      [reflexivity | discriminate].
Defined.

End BridgeFacts.

(** * More about the component *)

Module FrameMore.

Import Frame Design Session FrameFacts.

(** ** Dragging a dial *)

Lemma normalize_cases d :
  (180 < d → normalize d == d - 360)%Q
  ∧ (d < -(180) → normalize d == d + 360)%Q
  ∧ (-(180) <= d <= 180 → normalize d = d)%Q.
Proof.
  unfold normalize. repeat split.
  - intros H. rewrite (proj2 (Qpositive_true (d - 180))) by lra.
    destruct (Qpositive (- (180) - (d - 360))) eqn:E.
    + apply Qpositive_true in E. lra.
    + reflexivity.
  - intros H. rewrite (proj2 (Qpositive_false (d - 180))) by lra.
    rewrite (proj2 (Qpositive_true (- (180) - d))) by lra. reflexivity.
  - intros [H1 H2]. rewrite (proj2 (Qpositive_false (d - 180))) by lra.
    rewrite (proj2 (Qpositive_false (- (180) - d))) by lra. reflexivity.
Qed.

(** X1.  The change of pointer angle that a drag adds to a dial is the
    raw difference brought back by one turn when it is more than half a
    turn: for a raw difference of at most one turn and a half either way
    it is at most 180 degrees in size, it differs from the raw
    difference by 0 or 360 degrees, and a difference of at most half a
    turn is kept as it is. *)
Theorem normalize_within_half_turn (d : Q) :
  (Qabs d <= 540)%Q →
  (Qabs (normalize d) <= 180)%Q
  ∧ (normalize d == d ∨ normalize d == d - 360 ∨ normalize d == d + 360)%Q
  ∧ ((Qabs d <= 180)%Q → normalize d = d).
Proof.
  intros Hd. destruct (normalize_cases d) as (Hhi & Hlo & Hmid).
  assert (Hb : (-(540) <= d <= 540)%Q).
  { revert Hd. apply Qabs_case; intros; split; lra. }
  destruct (Qlt_le_dec 180 d) as [H1|H1].
  { specialize (Hhi H1). split; [apply Qabs_case; intros; lra|].
    split; [right; left; exact Hhi|].
    intros H. exfalso. revert H. apply Qabs_case; intros; lra. }
  destruct (Qlt_le_dec d (-(180))) as [H2|H2].
  { specialize (Hlo H2). split; [apply Qabs_case; intros; lra|].
    split; [right; right; exact Hlo|].
    intros H. exfalso. revert H. apply Qabs_case; intros; lra. }
  specialize (Hmid (conj H2 H1)). rewrite Hmid.
  split; [apply Qabs_case; intros; lra|].
  split; [left; reflexivity|]. intros _. reflexivity.
Qed.

Lemma normalize_within_half_turn_witness :
  (normalize 350 == -(10))%Q ∧ (Qabs (normalize 350) <= 180)%Q.
Proof.
  pose proof (normalize_within_half_turn 350 ltac:(vm_compute; discriminate))
    as (Hb & _ & _).
  split; [reflexivity | exact Hb].
Defined.

Lemma dispatch_idle e s : handle e s = s → dispatch e s = s.
Proof.
  intros H. unfold dispatch. rewrite H.
  apply settle_same_deps, same_deps_refl.
Qed.

Lemma dispatch_pointer e s : pointer (dispatch e s) = pointer (handle e s).
Proof. apply settle_pointer. Qed.

Lemma mouse_move_dragging a s :
  isDragging s = true →
  let s' := dispatch (MouseMove a) s in
  mouseRotation s' = (mouseRotation s + normalize (a - lastAngleRef s))%Q
  ∧ lastAngleRef s' = a
  ∧ isDragging s' = true
  ∧ encoderRotation s' = encoderRotation s
  ∧ rightDial s' = rightDial s.
Proof.
  intros Hdrag s'.
  pose proof (dispatch_fusion (MouseMove a) s) as F.
  pose proof (dispatch_pointer (MouseMove a) s) as P.
  fold s' in F, P. clearbody s'.
  change (handle (MouseMove a) s) with (handleMouseMove a s) in F, P.
  unfold handleMouseMove in F, P. rewrite Hdrag in F, P.
  unfold fusion, pointer in F, P. simpl in F, P.
  injection F as F1 F2 F3 F4 _ _ _. injection P as P1 P2 _ _.
  unfold rightDial. rewrite F1, F2, F3, F4, P1, P2, Hdrag. auto.
Qed.

Lemma right_mouse_move_dragging a s :
  isRightDragging s = true →
  let s' := dispatch (RightMouseMove a) s in
  rightMouseRotation s'
  = (rightMouseRotation s + normalize (a - lastRightAngleRef s))%Q
  ∧ lastRightAngleRef s' = a
  ∧ isRightDragging s' = true
  ∧ rightEncoderRotation s' = rightEncoderRotation s
  ∧ leftDial s' = leftDial s.
Proof.
  intros Hdrag s'.
  pose proof (dispatch_fusion (RightMouseMove a) s) as F.
  pose proof (dispatch_pointer (RightMouseMove a) s) as P.
  fold s' in F, P. clearbody s'.
  change (handle (RightMouseMove a) s) with (handleRightMouseMove a s)
    in F, P.
  unfold handleRightMouseMove in F, P. rewrite Hdrag in F, P.
  unfold fusion, pointer in F, P. simpl in F, P.
  injection F as F1 F2 F3 F4 _ _ _. injection P as _ _ P1 P2.
  unfold leftDial. rewrite F1, F2, F3, F4, P1, P2, Hdrag. auto.
Qed.

(** X2.  A move of the pointer outside a drag changes nothing at all.
    During a drag of a dial it adds the normalised change of pointer
    angle to the mouse contribution of that dial and records the pointer
    angle; the encoder contribution of the dial and both contributions
    of the other dial are the ones of before, also after the renders
    that follow. *)
Theorem pointer_move_turns_its_dial_only (a : Q) (s : State) :
  (isDragging s = false → dispatch (MouseMove a) s = s)
  ∧ (isRightDragging s = false → dispatch (RightMouseMove a) s = s)
  ∧ (isDragging s = true →
     let s' := dispatch (MouseMove a) s in
     mouseRotation s' = (mouseRotation s + normalize (a - lastAngleRef s))%Q
     ∧ lastAngleRef s' = a
     ∧ encoderRotation s' = encoderRotation s
     ∧ rightDial s' = rightDial s)
  ∧ (isRightDragging s = true →
     let s' := dispatch (RightMouseMove a) s in
     rightMouseRotation s'
     = (rightMouseRotation s + normalize (a - lastRightAngleRef s))%Q
     ∧ lastRightAngleRef s' = a
     ∧ rightEncoderRotation s' = rightEncoderRotation s
     ∧ leftDial s' = leftDial s).
Proof.
  split; [|split; [|split]].
  - intros H. apply dispatch_idle. simpl. unfold handleMouseMove.
    rewrite H. reflexivity.
  - intros H. apply dispatch_idle. simpl. unfold handleRightMouseMove.
    rewrite H. reflexivity.
  - intros H. destruct (mouse_move_dragging a s H) as (H1 & H2 & _ & H3 & H4).
    auto.
  - intros H.
    destruct (right_mouse_move_dragging a s H) as (H1 & H2 & _ & H3 & H4).
    auto.
Qed.

Lemma pointer_move_witness :
  let s := dispatch (MouseDown 10) mounted in
  mouseRotation (dispatch (MouseMove 40) s) = (0 + normalize (40 - 10))%Q
  ∧ dispatch (MouseMove 40) mounted = mounted.
Proof.
  intros s. split.
  - exact (proj1 (proj1 (proj2 (proj2
             (pointer_move_turns_its_dial_only 40 s))) eq_refl)).
  - exact (proj1 (pointer_move_turns_its_dial_only 40 mounted) eq_refl).
Defined.

Lemma fusion_counters a b :
  fusion a = fusion b →
  lastEncoder1Ref a = lastEncoder1Ref b
  ∧ lastEncoder2Ref a = lastEncoder2Ref b.
Proof. unfold fusion. intros H. injection H as _ _ _ _ -> -> _. auto. Qed.

Lemma step_angle (angle : Q) (last n : Z) :
  (angle == inject_Z last * gain)%Q →
  (angle + inject_Z (n - last) * gain == inject_Z n * gain)%Q.
Proof.
  intros H. rewrite H. unfold Z.sub.
  rewrite inject_Z_plus, inject_Z_opp. ring.
Qed.

Lemma encoder1_tick_counter n s : lastEncoder1Ref (encoder1_tick n s) = n.
Proof.
  unfold encoder1_tick. case_bool_decide as H; [reflexivity|].
  destruct (decide (n = lastEncoder1Ref s)); congruence.
Qed.

Lemma encoder2_tick_counter n s : lastEncoder2Ref (encoder2_tick n s) = n.
Proof.
  unfold encoder2_tick. case_bool_decide as H; [reflexivity|].
  destruct (decide (n = lastEncoder2Ref s)); congruence.
Qed.

Lemma ws_onmessage_counters e1 e2 s :
  lastEncoder1Ref (ws_onmessage (Encoder e1 e2) s) = e1
  ∧ lastEncoder2Ref (ws_onmessage (Encoder e1 e2) s) = e2
  ∧ needsSync (ws_onmessage (Encoder e1 e2) s) = false.
Proof.
  unfold ws_onmessage. destruct (needsSync s) eqn:Hs.
  - repeat split.
  - rewrite encoder2_tick_counter.
    rewrite (proj2 (encoder2_tick_left _ _)), encoder1_tick_counter.
    repeat split. unfold encoder2_tick, encoder1_tick.
    split_conditions; exact Hs.
Qed.

Lemma fusion_needsSync a b : fusion a = fusion b → needsSync a = needsSync b.
Proof. unfold fusion. intros H. injection H as _ _ _ _ _ _ ->. reflexivity. Qed.

(** Only an encoder message writes the recorded counters. *)
Lemma handle_recorded e s :
  recorded (handle e s)
  = match e with
    | WsMessage (Encoder encoder1 encoder2) => (encoder1, encoder2)
    | _ => recorded s
    end.
Proof.
  unfold recorded.
  destruct e as [|m|a|a| |a|a| |i resp];
    try (destruct m as [e1 e2|];
         [change (handle (WsMessage (Encoder e1 e2)) s)
            with (ws_onmessage (Encoder e1 e2) s);
          destruct (ws_onmessage_counters e1 e2 s) as (H1 & H2 & _);
          rewrite H1, H2; reflexivity
         |reflexivity]);
    simpl; try reflexivity.
  - unfold handleMouseMove. destruct (isDragging s); reflexivity.
  - unfold handleRightMouseMove. destruct (isRightDragging s); reflexivity.
  - destruct (pending s !! i) as [f|]; [|reflexivity].
    destruct (closure f), resp as [[|v vs]| |]; simpl;
      try destruct (0 <? _); reflexivity.
Qed.

Lemma dispatch_recorded e s : recorded (dispatch e s) = recorded (handle e s).
Proof.
  destruct (fusion_counters _ _ (dispatch_fusion e s)) as [H1 H2].
  unfold recorded. rewrite H1, H2. reflexivity.
Qed.

Lemma run_events_recorded es : ∀ s,
  recorded (run_events es s) = last_counters es (recorded s).
Proof.
  induction es as [|e es IH]; intros s; [reflexivity|].
  change (run_events (e :: es) s) with (run_events es (dispatch e s)).
  rewrite IH, dispatch_recorded, handle_recorded. reflexivity.
Qed.

(** X4.  The counters the component has recorded are always those of
    the last encoder message it got.  After any sequence of events from
    any state, the recorded counters are the counters of the last
    encoder message of the sequence, or the ones recorded before when
    the sequence has none: a message records its counters on every path
    (resynchronisation, unchanged counter, small step, jump of more than
    100), and no other event (a drag, a reconnection, the answer of a
    fetch) or render touches them.  After an encoder message the
    resynchronisation is done, until the connection opens again. *)
Theorem counters_follow_the_last_message (es : list Event) (s : State) :
  recorded (run_events es s) = last_counters es (recorded s)
  ∧ (∀ e1 e2,
       needsSync (dispatch (WsMessage (Encoder e1 e2)) s) = false
       ∧ recorded (dispatch (WsMessage (Encoder e1 e2)) s) = (e1, e2))
  ∧ needsSync (dispatch WsOpen s) = true
  ∧ recorded (dispatch WsOpen s) = recorded s.
Proof.
  split; [apply run_events_recorded|]. split; [|split].
  - intros e1 e2. split.
    + rewrite (fusion_needsSync _ _
                 (dispatch_fusion (WsMessage (Encoder e1 e2)) s)).
      apply (ws_onmessage_counters e1 e2 s).
    + rewrite dispatch_recorded. apply handle_recorded.
  - rewrite (fusion_needsSync _ _ (dispatch_fusion WsOpen s)). reflexivity.
  - rewrite dispatch_recorded. apply handle_recorded.
Qed.

(** ** What navigation has not consumed *)

Lemma residual_fields a b :
  rightMouseRotation b = rightMouseRotation a →
  rightEncoderRotation b = rightEncoderRotation a →
  lastRightRotationRef b = lastRightRotationRef a →
  residual b = residual a.
Proof. unfold residual, rightRotation. intros -> -> ->. reflexivity. Qed.

Lemma residual_frame a b :
  fusion b = fusion a → nav_state b = nav_state a → residual b = residual a.
Proof.
  unfold fusion, nav_state. intros F N.
  injection F as _ _ F1 F2 _ _ _. injection N as _ N.
  apply residual_fields; assumption.
Qed.

(** The navigation effect reads the cursor and the consumed angle from
    the state it updates, and the angle and the length from its render. *)
Lemma effect_navigation_residual r s :
  fusion s = fusion r → lastRightRotationRef s = lastRightRotationRef r →
  residual (effect_navigation r s) = residual (effect_navigation r r).
Proof.
  unfold fusion. intros F L. injection F as _ _ F1 F2 _ _ _.
  unfold effect_navigation. rewrite L.
  destruct (0 <? _); apply residual_fields; simpl; congruence.
Qed.

Lemma effect_navigation_idle r s :
  (Qabs (rightRotation r - lastRightRotationRef s) < 60)%Q →
  effect_navigation r s = s.
Proof.
  intros H. unfold effect_navigation.
  assert (Hk : Qfloor (Qabs (rightRotation r - lastRightRotationRef s)
                       / threshold) = 0).
  { apply floor_unique; [|exact H]. change (inject_Z 0 * 60)%Q with 0%Q.
    apply Qabs_nonneg. }
  rewrite Hk. reflexivity.
Qed.

Lemma before_navigation r c1 c2 :
  let s := run c2 effect_variation r (run c1 effect_reset r r) in
  fusion s = fusion r ∧ nav_state s = nav_state r.
Proof.
  cbv zeta. split.
  - rewrite !run_fusion;
      auto using effect_reset_fusion, effect_variation_fusion.
  - rewrite (run_frame nav_state) by (intros; apply effect_variation_frame).
    rewrite (run_frame nav_state) by (intros; apply effect_reset_frame).
    reflexivity.
Qed.

Lemma flush_under_a_step p r :
  ((rightRotation p == rightRotation r)%Q → under_a_step r) →
  under_a_step (flush p r).
Proof.
  intros H. unfold under_a_step, flush, flush_with. cbv zeta.
  set (s2 := run _ effect_variation r _).
  destruct (before_navigation r
              (negb (bool_decide (selectedWordIndex p = selectedWordIndex r)))
              (negb (Qeq_bool (rotation p) (rotation r)))) as [F2 N2].
  fold s2 in F2, N2.
  set (c := (negb (Qeq_bool (rightRotation p) (rightRotation r)) || _)%bool).
  set (s3 := run c effect_navigation r s2).
  assert (H3 : (Qabs (residual s3) < 60)%Q).
  { unfold s3, run. destruct c eqn:Hc.
    - rewrite effect_navigation_residual;
        [apply navigation_spec | exact F2 |].
      unfold nav_state in N2. congruence.
    - rewrite (residual_frame r s2 F2 N2). apply H.
      unfold c in Hc. apply orb_false_iff in Hc as [Hc _].
      apply negb_false_iff, Qeq_bool_iff in Hc. exact Hc. }
  rewrite (residual_frame s3); [exact H3| |].
  - apply run_fusion. intros. apply effect_predict_fusion.
  - apply (run_frame nav_state). intros. apply effect_predict_frame.
Qed.

Lemma settle_under_a_step n : ∀ p r,
  under_a_step r → under_a_step (settle n p r).
Proof.
  induction n as [|n IH]; intros p r H; [exact H|]. simpl.
  apply IH, flush_under_a_step. intros _. exact H.
Qed.

Lemma handle_consumed e s :
  lastRightRotationRef (handle e s) = lastRightRotationRef s.
Proof.
  destruct e as [|m|a|a| |a|a| |i resp]; simpl; try reflexivity.
  - destruct m as [e1 e2|]; [|reflexivity]. unfold ws_onmessage,
      encoder_sync, encoder1_tick, encoder2_tick.
    split_conditions; reflexivity.
  - unfold handleMouseMove. destruct (isDragging s); reflexivity.
  - unfold handleRightMouseMove. destruct (isRightDragging s); reflexivity.
  - destruct (pending s !! i) as [f|]; [|reflexivity].
    destruct (closure f), resp as [[|v vs]| |]; reflexivity.
Qed.

Lemma dispatch_under_a_step e s :
  under_a_step s → under_a_step (dispatch e s).
Proof.
  intros H. unfold dispatch, renders. rewrite settle_S.
  apply settle_under_a_step, flush_under_a_step. intros Hr.
  unfold under_a_step, residual in *. rewrite handle_consumed, <- Hr.
  exact H.
Qed.

Lemma run_events_under_a_step es : ∀ s,
  under_a_step s → under_a_step (run_events es s).
Proof.
  induction es as [|e es IH]; intros s H; [exact H|].
  apply IH, dispatch_under_a_step, H.
Qed.

Lemma mounted_under_a_step : under_a_step mounted.
Proof. unfold under_a_step. vm_compute. reflexivity. Qed.

(** X5.  After every event, whatever it is, what the right dial has
    turned beyond the angle that navigation has consumed is less than one
    step of 60 degrees in size: every whole step of a change is turned
    into a cursor move by the renders of the event that brings it. *)
Theorem leftover_is_under_a_step :
  (∀ es : list Event, under_a_step (run_events es mounted))
  ∧ (∀ (e : Event) (s : State),
       under_a_step s → under_a_step (dispatch e s)).
Proof.
  split.
  - intros es. apply run_events_under_a_step, mounted_under_a_step.
  - apply dispatch_under_a_step.
Qed.

Lemma leftover_is_under_a_step_witness :
  under_a_step
    (dispatch (WsMessage (Encoder 0 90))
       (dispatch (WsMessage (Encoder 0 0)) mounted)).
Proof.
  exact (proj2 leftover_is_under_a_step (WsMessage (Encoder 0 90)) _
           (proj1 leftover_is_under_a_step [WsMessage (Encoder 0 0)])).
Defined.

(** ** One prediction at a time *)

Lemma predictions_app l1 l2 :
  predictions (l1 ++ l2) = (predictions l1 + predictions l2)%nat.
Proof.
  induction l1 as [|f l1 IH]; simpl; [reflexivity|]. rewrite IH. lia.
Qed.

Lemma predictions_delete l : ∀ i f,
  l !! i = Some f →
  predictions l
  = ((if is_prediction f then 1 else 0) + predictions (delete i l))%nat.
Proof.
  induction l as [|g l IH]; intros i f H; [discriminate|].
  destruct i as [|i]; simpl in *.
  - injection H as ->. reflexivity.
  - rewrite (IH i f H). lia.
Qed.

(** What [one_prediction] reads. *)
Lemma one_prediction_fields a b :
  pending b = pending a → isPredicting b = isPredicting a →
  one_prediction a → one_prediction b.
Proof. unfold one_prediction. intros -> ->. trivial. Qed.

Lemma effect_variation_predictions r s :
  predictions (pending (effect_variation r s)) = predictions (pending s).
Proof.
  unfold effect_variation, fetch. split_conditions; simpl; try reflexivity.
  rewrite predictions_app. simpl. lia.
Qed.

Lemma flush_one_prediction p r : one_prediction r → one_prediction (flush p r).
Proof.
  intros H. unfold flush, flush_with. cbv zeta.
  set (s3 := run _ effect_navigation r _).
  assert (H3 : predictions (pending s3) = predictions (pending r)
               ∧ isPredicting s3 = isPredicting r).
  { unfold s3. split.
    - rewrite (run_frame (λ s, predictions (pending s)))
        by (intros r0 s0; unfold effect_navigation;
            split_conditions; reflexivity).
      rewrite (run_frame (λ s, predictions (pending s)))
        by (intros; apply effect_variation_predictions).
      rewrite (run_frame (λ s, predictions (pending s)))
        by reflexivity.
      reflexivity.
    - rewrite (run_frame isPredicting)
        by (intros; apply effect_navigation_frame).
      rewrite (run_frame isPredicting)
        by (intros; apply effect_variation_frame).
      rewrite (run_frame isPredicting) by (intros; apply effect_reset_frame).
      reflexivity. }
  destruct H3 as [Hp Hi]. clearbody s3. unfold one_prediction in *.
  destruct (_ || _ || _)%bool; cbv beta iota delta [run];
    [|rewrite Hp, Hi; exact H].
  unfold effect_predict. destruct (isPredicting r) eqn:E.
  - rewrite andb_false_r, Hp, Hi. exact H.
  - destruct (_ <=? _); simpl.
    + rewrite predictions_app, Hp, H. reflexivity.
    + rewrite Hp, Hi. exact H.
Qed.

Lemma settle_one_prediction n : ∀ p r,
  one_prediction r → one_prediction (settle n p r).
Proof.
  induction n as [|n IH]; intros p r H; [exact H|].
  apply IH, flush_one_prediction, H.
Qed.

Lemma handle_one_prediction e s : one_prediction s → one_prediction (handle e s).
Proof.
  intros H. destruct e as [|m|a|a| |a|a| |i resp]; simpl;
    try (revert H; apply one_prediction_fields; reflexivity).
  - destruct m as [e1 e2|]; [|exact H]. revert H.
    apply one_prediction_fields;
      unfold ws_onmessage, encoder_sync, encoder1_tick, encoder2_tick;
      split_conditions; reflexivity.
  - unfold handleMouseMove. destruct (isDragging s); [|exact H].
    revert H. apply one_prediction_fields; reflexivity.
  - unfold handleRightMouseMove. destruct (isRightDragging s); [|exact H].
    revert H. apply one_prediction_fields; reflexivity.
  - destruct (pending s !! i) as [f|] eqn:Hf; [|exact H].
    pose proof (predictions_delete _ _ _ Hf) as Hd.
    unfold one_prediction in *. unfold is_prediction in Hd. unfold resume.
    destruct (closure f) as [w c|n].
    + simpl in Hd. rewrite Hd in H.
      destruct resp as [vs| |]; simpl;
        [destruct (0 <? js_length vs)|..]; exact H.
    + assert (H0 : predictions (delete i (pending s)) = 0%nat).
      { destruct (isPredicting s); lia. }
      destruct resp as [[|v vs]| |]; simpl; exact H0.
Qed.

Lemma dispatch_one_prediction e s :
  one_prediction s → one_prediction (dispatch e s).
Proof. intros H. apply settle_one_prediction, handle_one_prediction, H. Qed.

Lemma run_events_one_prediction es : ∀ s,
  one_prediction s → one_prediction (run_events es s).
Proof.
  induction es as [|e es IH]; intros s H; [exact H|].
  apply IH, dispatch_one_prediction, H.
Qed.

(** X6.  At most one prediction of a new last word is in flight at any
    time, and [isPredicting] is set exactly while there is one: this
    holds at the first render and every event keeps it, whatever the
    order in which fetches complete. *)
Theorem one_prediction_in_flight :
  (∀ es : list Event,
     let s := run_events es mounted in
     (predictions (pending s) <= 1)%nat
     ∧ (isPredicting s = true ↔ predictions (pending s) = 1%nat))
  ∧ (∀ (e : Event) (s : State),
       one_prediction s → one_prediction (dispatch e s)).
Proof.
  split; [|apply dispatch_one_prediction].
  intros es s.
  assert (H : one_prediction s).
  { apply run_events_one_prediction. reflexivity. }
  unfold one_prediction in H. rewrite H.
  destruct (isPredicting s); split; try lia; split; intros; congruence.
Qed.

Lemma one_prediction_in_flight_witness :
  one_prediction (dispatch (RightMouseMove 70) mounted).
Proof.
  exact (proj2 one_prediction_in_flight (RightMouseMove 70) mounted eq_refl).
Defined.

(** ** The sentence and the cursor *)

Lemma run_grows c e r s :
  (∀ r s, js_length (words s) <= js_length (words (e r s))) →
  js_length (words s) <= js_length (words (run c e r s)).
Proof. intros H. unfold run. destruct c; [apply H|lia]. Qed.

Lemma write_word_grows i v prev :
  js_length prev <= js_length (write_word i v prev).
Proof. unfold write_word. case_bool_decide; [lia|apply js_length_set]. Qed.

Lemma effect_variation_grows r s :
  js_length (words s) <= js_length (words (effect_variation r s)).
Proof.
  unfold effect_variation. split_conditions; simpl; try lia.
  apply write_word_grows.
Qed.

Lemma flush_grows p r : js_length (words r) <= js_length (words (flush p r)).
Proof.
  unfold flush, flush_with. cbv zeta.
  rewrite (run_frame words) by (intros; apply effect_predict_frame).
  rewrite (run_frame words) by (intros; apply effect_navigation_frame).
  etransitivity; [|apply run_grows, effect_variation_grows].
  rewrite (run_frame words) by (intros; apply effect_reset_frame). lia.
Qed.

Lemma settle_grows n : ∀ p r,
  js_length (words r) <= js_length (words (settle n p r)).
Proof.
  induction n as [|n IH]; intros p r; simpl; [lia|].
  etransitivity; [apply (flush_grows p r)|apply IH].
Qed.

Lemma handle_grows e s :
  js_length (words s) <= js_length (words (handle e s)).
Proof.
  destruct e as [|m|a|a| |a|a| |i resp]; simpl; try lia.
  - destruct m as [e1 e2|]; [|apply Z.le_refl].
    unfold ws_onmessage, encoder_sync, encoder1_tick, encoder2_tick.
    split_conditions; simpl; lia.
  - unfold handleMouseMove. destruct (isDragging s); simpl; lia.
  - unfold handleRightMouseMove. destruct (isRightDragging s); simpl; lia.
  - destruct (pending s !! i) as [f|]; [|lia].
    destruct (closure f), resp as [[|v vs]| |]; simpl;
      try destruct (0 <? _); simpl; unfold js_length;
      rewrite ?length_app; simpl; lia.
Qed.

(** X7.  No event makes the sentence shorter: a word is replaced in
    place or a word is added at the end, so the number of words after an
    event, and after any sequence of events, is at least what it was. *)
Theorem sentence_never_shrinks (es : list Event) (s : State) :
  js_length (words s) <= js_length (words (run_events es s)).
Proof.
  revert s. induction es as [|e es IH]; intros s; simpl; [lia|].
  etransitivity; [|apply IH]. unfold dispatch.
  etransitivity; [apply (handle_grows e s)|apply settle_grows].
Qed.

Lemma settle_words n : ∀ a b,
  (rotation a == rotation b)%Q → words (settle n a b) = words b.
Proof.
  induction n as [|n IH]; intros a b H; [reflexivity|]. simpl.
  destruct (flush_rotations a b) as [L _].
  rewrite IH by (rewrite L; reflexivity). apply flush_words, H.
Qed.

(** The sentence after an event is the one of its handler when the
    handler leaves the left angle as it is. *)
Lemma dispatch_words e s :
  (rotation s == rotation (handle e s))%Q →
  words (dispatch e s) = words (handle e s).
Proof. intros H. apply settle_words, H. Qed.

(** X8.  The right dial never edits the sentence: pressing, dragging and
    releasing it, and an encoder message that moves only the counter of
    the right dial, leave every word as it is, whatever the cursor does
    in the renders that follow. *)
Theorem right_dial_leaves_the_sentence (s : State) (a : Q) (e2 : Z) :
  words (dispatch (RightMouseDown a) s) = words s
  ∧ words (dispatch (RightMouseMove a) s) = words s
  ∧ words (dispatch RightMouseUp s) = words s
  ∧ (needsSync s = false →
     words (dispatch (WsMessage (Encoder (lastEncoder1Ref s) e2)) s)
     = words s).
Proof.
  split; [|split; [|split]].
  - rewrite dispatch_words; reflexivity.
  - rewrite dispatch_words; simpl; unfold handleRightMouseMove;
      destruct (isRightDragging s); reflexivity.
  - rewrite dispatch_words; reflexivity.
  - intros Hsync.
    assert (Hh : handle (WsMessage (Encoder (lastEncoder1Ref s) e2)) s
                 = encoder2_tick e2 s).
    { simpl. rewrite Hsync. unfold encoder1_tick.
      rewrite bool_decide_eq_false_2 by (intros H; apply H; reflexivity).
      reflexivity. }
    rewrite dispatch_words; rewrite Hh; unfold encoder2_tick;
      split_conditions; reflexivity.
Qed.

Lemma right_dial_leaves_the_sentence_witness :
  let s := dispatch (WsMessage (Encoder 0 0)) mounted in
  words (dispatch (WsMessage (Encoder (lastEncoder1Ref s) 40)) s) = words s.
Proof.
  intros s.
  exact (proj2 (proj2 (proj2 (right_dial_leaves_the_sentence s 0 40)))
           eq_refl).
Defined.

Lemma flush_position_small p r :
  (rightRotation p == rightRotation r)%Q → under_a_step r →
  nav_state (flush p r) = nav_state r.
Proof.
  intros Hr Hs. unfold flush, flush_with. cbv zeta.
  rewrite (run_frame nav_state) by (intros; apply effect_predict_frame).
  set (s2 := run _ effect_variation r _).
  destruct (before_navigation r
              (negb (bool_decide (selectedWordIndex p = selectedWordIndex r)))
              (negb (Qeq_bool (rotation p) (rotation r)))) as [F2 N2].
  fold s2 in F2, N2.
  unfold run at 1. destruct (_ || _)%bool; [|exact N2].
  rewrite effect_navigation_idle; [exact N2|].
  unfold nav_state in N2. injection N2 as _ ->. exact Hs.
Qed.

Lemma settle_position_small n : ∀ a b,
  (rightRotation a == rightRotation b)%Q → under_a_step b →
  nav_state (settle n a b) = nav_state b.
Proof.
  induction n as [|n IH]; intros a b Hr Hs; [reflexivity|]. simpl.
  destruct (flush_rotations a b) as [_ R].
  pose proof (flush_position_small a b Hr Hs) as P.
  rewrite IH; [exact P | rewrite R; reflexivity |].
  unfold under_a_step in *.
  rewrite (residual_frame b); [exact Hs | apply flush_fusion | exact P].
Qed.

(** The cursor after an event is the one of its handler when the handler
    leaves the right angle as it is. *)
Lemma dispatch_position e s :
  (rightRotation s == rightRotation (handle e s))%Q → under_a_step s →
  nav_state (dispatch e s) = nav_state (handle e s).
Proof.
  intros Hr Hs. apply settle_position_small; [exact Hr|].
  unfold under_a_step, residual in *. rewrite handle_consumed, <- Hr.
  exact Hs.
Qed.

(** X9.  The left dial never moves the cursor: in a state where less
    than a step of the right dial is left over (every state the
    component reaches), pressing, dragging and releasing the left dial,
    and an encoder message that moves only the counter of the left dial,
    leave the cursor and the consumed angle as they are, also when the
    word they write makes the sentence longer. *)
Theorem left_dial_leaves_the_cursor (s : State) (a : Q) (e1 : Z) :
  under_a_step s →
  nav_state (dispatch (MouseDown a) s) = nav_state s
  ∧ nav_state (dispatch (MouseMove a) s) = nav_state s
  ∧ nav_state (dispatch MouseUp s) = nav_state s
  ∧ (needsSync s = false →
     nav_state (dispatch (WsMessage (Encoder e1 (lastEncoder2Ref s))) s)
     = nav_state s).
Proof.
  intros Hs. split; [|split; [|split]].
  - rewrite dispatch_position; [reflexivity..|exact Hs].
  - rewrite dispatch_position; [| |exact Hs]; simpl;
      unfold handleMouseMove; destruct (isDragging s); reflexivity.
  - rewrite dispatch_position; [reflexivity..|exact Hs].
  - intros Hsync.
    assert (Hh : handle (WsMessage (Encoder e1 (lastEncoder2Ref s))) s
                 = encoder1_tick e1 s).
    { simpl. rewrite Hsync. unfold encoder2_tick.
      rewrite (proj2 (encoder1_tick_right e1 s)).
      rewrite bool_decide_eq_false_2 by (intros H; apply H; reflexivity).
      reflexivity. }
    rewrite dispatch_position; [| |exact Hs]; rewrite Hh;
      unfold encoder1_tick; split_conditions; reflexivity.
Qed.

Lemma left_dial_leaves_the_cursor_witness :
  let s := dispatch (MouseDown 0) mounted in
  nav_state (dispatch (MouseMove 100) s) = nav_state s.
Proof.
  intros s.
  refine (proj1 (proj2 (left_dial_leaves_the_cursor s 100 0 _))).
  exact (dispatch_under_a_step _ _ mounted_under_a_step).
Defined.

(** ** Renders after an event *)

(** X10.  The renders that follow an event come to rest: after three of
    them every effect finds its dependencies unchanged, so that the
    state after an event is the state after the third render, one more
    render runs no effect, and any number of further renders gives the
    same state. *)
Theorem renders_come_to_rest (e : Event) (s : State) :
  dispatch e s = settle 3 s (handle e s)
  ∧ flush (settle 2 s (handle e s)) (dispatch e s) = dispatch e s
  ∧ ∀ n, settle (renders + n) s (handle e s) = dispatch e s.
Proof.
  pose proof (settle_stable 1 s (handle e s)) as H1.
  assert (E : dispatch e s = settle 3 s (handle e s)) by exact H1.
  split; [exact E|]. split.
  - rewrite E at 2. rewrite <- H1, E. reflexivity.
  - intros n. rewrite E. apply (settle_stable (1 + n)).
Qed.

(** ** The first turn of the left dial on a word *)

Lemma flush_left_only p r :
  selectedWordIndex p = selectedWordIndex r →
  (rightRotation p == rightRotation r)%Q →
  words p = words r →
  isPredicting p = isPredicting r →
  flush p r
  = run (negb (Qeq_bool (rotation p) (rotation r))) effect_variation r r.
Proof.
  intros Hi Hr Hw Hp. unfold flush, flush_with.
  rewrite Hi, Hw, Hp, eqb_reflx, !bool_decide_eq_true_2 by reflexivity.
  apply Qeq_bool_iff in Hr. rewrite Hr. reflexivity.
Qed.

Lemma fetch_same_deps q k s : same_deps s (fetch q k s).
Proof. repeat split; reflexivity. Qed.

(** X11.  The first turn of the left dial on a word asks for its
    variants and writes nothing: when the variants of the word under the
    cursor are not fetched, a drag move that changes the left angle
    sends exactly one request, which carries the word under the cursor,
    the sentence joined by spaces and the cursor, and whose answer will
    be applied with that word and that cursor; the sentence, the cursor
    and the variants stay as they are.  Since the mark of fetched
    variants is set only by the answer, every further move before the
    answer sends another such request. *)
Theorem first_turn_asks_for_variants (a : Q) (s : State) :
  isDragging s = true →
  variationsFetchedForIndex s ≠ Some (selectedWordIndex s) →
  ¬ (normalize (a - lastAngleRef s) == 0)%Q →
  let originalWord := js_get (words s) (selectedWordIndex s) in
  let s' := dispatch (MouseMove a) s in
  s' = fetch {| word := originalWord;
                context := js_join (words s);
                position := selectedWordIndex s |}
             (VariationsThen originalWord (selectedWordIndex s))
             (handleMouseMove a s)
  ∧ words s' = words s
  ∧ selectedWordIndex s' = selectedWordIndex s
  ∧ currentVariations s' = currentVariations s
  ∧ variationsFetchedForIndex s' = variationsFetchedForIndex s.
Proof.
  intros Hdrag Hfetched Hmove originalWord s'.
  assert (E : s' = fetch {| word := originalWord;
                            context := js_join (words s);
                            position := selectedWordIndex s |}
                     (VariationsThen originalWord (selectedWordIndex s))
                     (handleMouseMove a s)).
  { unfold s', dispatch, renders.
    change (handle (MouseMove a) s) with (handleMouseMove a s).
    set (h := handleMouseMove a s).
    assert (Hh : h = set_lastAngleRef a
                       (setMouseRotation
                          (mouseRotation s + normalize (a - lastAngleRef s))%Q
                          s)).
    { unfold h, handleMouseMove. rewrite Hdrag. reflexivity. }
    rewrite settle_S, flush_left_only by (rewrite Hh; reflexivity).
    assert (Hrot : Qeq_bool (rotation s) (rotation h) = false).
    { destruct (Qeq_bool (rotation s) (rotation h)) eqn:Q; [|reflexivity].
      apply Qeq_bool_iff in Q. exfalso. apply Hmove.
      rewrite Hh in Q. unfold rotation in Q. simpl in Q. lra. }
    rewrite Hrot. cbv beta iota delta [run negb].
    unfold effect_variation.
    rewrite bool_decide_eq_true_2 by (rewrite Hh; exact Hfetched).
    cbv zeta.
    rewrite settle_same_deps by apply fetch_same_deps.
    rewrite Hh. reflexivity. }
  split; [exact E|]. rewrite E. unfold handleMouseMove. rewrite Hdrag.
  repeat split.
Qed.

Lemma first_turn_asks_for_variants_witness :
  let s := dispatch (MouseDown 0) mounted in
  pending (dispatch (MouseMove 70) s)
  = pending s
    ++ [{| request := {| word := Some "We"%string;
                         context := INITIAL_SENTENCE;
                         position := 0 |};
           closure := VariationsThen (Some "We"%string) 0 |}].
Proof.
  intros s.
  assert (H : isDragging s = true
              ∧ variationsFetchedForIndex s ≠ Some (selectedWordIndex s)
              ∧ ¬ (normalize (70 - lastAngleRef s) == 0)%Q).
  { vm_compute. repeat split; discriminate. }
  destruct H as (H1 & H2 & H3).
  rewrite (proj1 (first_turn_asks_for_variants 70 s H1 H2 H3)).
  vm_compute. reflexivity.
Defined.

(** ** What an event can change in the sentence *)

Lemma js_get_set_ne a i j v : i ≠ j → js_get (js_set a i v) j = js_get a j.
Proof.
  intros Hne. unfold js_get, js_set, jsstr in *.
  destruct (Z.ltb_spec i 0) as [Hi|Hi]; [reflexivity|].
  destruct (Z.ltb_spec j 0) as [Hj|Hj]; [reflexivity|].
  assert (Hn : Z.to_nat i ≠ Z.to_nat j) by lia.
  destruct (Nat.ltb_spec (Z.to_nat i) (length a)) as [Hlt|Hge].
  - rewrite list_lookup_insert_ne by exact Hn. reflexivity.
  - destruct (decide (Z.to_nat j < length a)%nat) as [Hj1|Hj1].
    + rewrite lookup_app_l by exact Hj1. reflexivity.
    + rewrite lookup_app_r by lia.
      rewrite (lookup_ge_None_2 a) by lia.
      destruct (decide (Z.to_nat j - length a < Z.to_nat i - length a)%nat)
        as [Hj2|Hj2].
      * rewrite lookup_app_l by (rewrite length_replicate; exact Hj2).
        rewrite lookup_replicate_2 by exact Hj2. reflexivity.
      * rewrite lookup_app_r by (rewrite length_replicate; lia).
        rewrite length_replicate.
        rewrite lookup_ge_None_2 by (simpl; lia). reflexivity.
Qed.

Lemma write_word_get_ne i j v prev :
  i ≠ j → js_get (write_word i v prev) j = js_get prev j.
Proof.
  intros Hne. unfold write_word. case_bool_decide; [reflexivity|].
  apply js_get_set_ne, Hne.
Qed.

Lemma js_get_app_l a b j : j < js_length a → js_get (a ++ b) j = js_get a j.
Proof.
  intros Hj. unfold js_get, js_length, jsstr in *.
  destruct (Z.ltb_spec j 0); [reflexivity|].
  rewrite lookup_app_l by lia. reflexivity.
Qed.

(** A handler or a completion callback keeps every word of the
    sentence, and moves the cursor only when it leaves the left angle
    alone. *)
Lemma handle_keeps_words e s j :
  j < js_length (words s) →
  js_get (words (handle e s)) j = js_get (words s) j.
Proof.
  intros Hj. destruct e as [|m|a|a| |a|a| |i resp]; simpl; try reflexivity.
  - destruct m as [e1 e2|]; [|reflexivity].
    unfold ws_onmessage, encoder_sync, encoder1_tick, encoder2_tick.
    split_conditions; reflexivity.
  - unfold handleMouseMove. destruct (isDragging s); reflexivity.
  - unfold handleRightMouseMove. destruct (isRightDragging s); reflexivity.
  - destruct (pending s !! i) as [f|]; [|reflexivity].
    destruct (closure f), resp as [[|v vs]| |]; simpl;
      try destruct (0 <? _); simpl; try reflexivity.
    apply js_get_app_l, Hj.
Qed.

Lemma handle_cursor_or_angle e s :
  selectedWordIndex (handle e s) = selectedWordIndex s
  ∨ rotation (handle e s) = rotation s.
Proof.
  destruct e as [|m|a|a| |a|a| |i resp]; simpl; try (left; reflexivity).
  - destruct m as [e1 e2|]; [|left; reflexivity].
    unfold ws_onmessage, encoder_sync, encoder1_tick, encoder2_tick.
    split_conditions; left; reflexivity.
  - unfold handleMouseMove. destruct (isDragging s); left; reflexivity.
  - unfold handleRightMouseMove. destruct (isRightDragging s);
      left; reflexivity.
  - destruct (pending s !! i) as [f|]; [|left; reflexivity].
    destruct (closure f), resp as [[|v vs]| |]; simpl;
      try destruct (0 <? _); right; reflexivity.
Qed.

(** The sentence after a render is the one of the render, or the one of
    the render with the word under its cursor written, which takes a
    change of the left angle. *)
Lemma flush_words_cases p r :
  words (flush p r) = words r
  ∨ (¬ (rotation p == rotation r)%Q
     ∧ ∃ v, words (flush p r) = write_word (selectedWordIndex r) v (words r)).
Proof.
  unfold flush, flush_with. cbv zeta.
  rewrite (run_frame words) by (intros; apply effect_predict_frame).
  rewrite (run_frame words) by (intros; apply effect_navigation_frame).
  set (s0 := run _ effect_reset r r).
  assert (H0 : words s0 = words r).
  { unfold s0. apply (run_frame words). intros; apply effect_reset_frame. }
  clearbody s0.
  destruct (Qeq_bool (rotation p) (rotation r)) eqn:Q.
  - left. exact H0.
  - cbv beta iota delta [run negb]. unfold effect_variation.
    split_conditions; simpl; try (left; exact H0).
    right. split.
    + intros H. apply Qeq_bool_iff in H. congruence.
    + rewrite H0. eexists. reflexivity.
Qed.

(** X12.  An event changes no word of the sentence but the one under the
    cursor: every other word that was there before the event is there
    after it, whatever the event is (a turn of either dial, an encoder
    message, the answer of a fetch) and whatever the renders that follow
    it do.  A word added at the end by a prediction leaves the words
    before it alone. *)
Theorem event_keeps_the_other_words (e : Event) (s : State) (j : Z) :
  j ≠ selectedWordIndex s → j < js_length (words s) →
  js_get (words (dispatch e s)) j = js_get (words s) j.
Proof.
  intros Hne Hj. unfold dispatch, renders. rewrite settle_S.
  set (h := handle e s).
  rewrite settle_words by (symmetry; apply flush_rotations).
  destruct (flush_words_cases s h) as [-> | (Hrot & v & ->)].
  - apply handle_keeps_words, Hj.
  - rewrite write_word_get_ne; [apply handle_keeps_words, Hj|].
    destruct (handle_cursor_or_angle e s) as [H|H]; fold h in H.
    + rewrite H. congruence.
    + exfalso. apply Hrot. rewrite H. reflexivity.
Qed.

Lemma event_keeps_the_other_words_witness :
  let s := dispatch (MouseDown 0) mounted in
  js_get (words (dispatch (MouseMove 130) s)) 1 = js_get (words s) 1.
Proof.
  intros s. apply (event_keeps_the_other_words (MouseMove 130) s 1).
  - vm_compute. discriminate.
  - vm_compute. reflexivity.
Defined.

(** ** The variant chosen by an angle *)




End FrameMore.

(** * The sentence on screen *)

Module DisplayFacts.

Import Frame Display FrameFacts.

Lemma window_bounds sel len :
  0 <= sel <= len →
  let '(start, end_) := window sel len in
  0 <= start <= end_ ∧ end_ <= len
  ∧ end_ - start = Z.min len maxVisible
  ∧ (sel < len → start <= sel < end_).
Proof.
  intros H. unfold window, maxVisible. change (6 / 2) with 3.
  destruct (Z.ltb_spec
              (Z.min len (Z.max 0 (sel - 3) + 6) - Z.max 0 (sel - 3)) 6);
    lia.
Qed.

Lemma js_slice_inside {A} (a : list A) start end_ :
  0 <= start <= end_ → end_ <= js_length a →
  js_slice a start end_
  = take (Z.to_nat (end_ - start)) (drop (Z.to_nat start) a).
Proof.
  intros H1 H2. unfold js_slice.
  destruct (Z.ltb_spec start 0); [lia|].
  destruct (Z.ltb_spec end_ 0); [lia|].
  rewrite !Z.min_l by lia. reflexivity.
Qed.

(** The span at place [i] of the window. *)
Lemma visible_lookup s i :
  cursor_in_range s →
  let '(start, end_) := window (selectedWordIndex s) (js_length (words s)) in
  visible s !! i
  = if decide (i < Z.to_nat (end_ - start))%nat then
      Some {| actualIndex := start + Z.of_nat i;
              shown := js_get (words s) (start + Z.of_nat i);
              selected :=
                bool_decide (selectedWordIndex s = start + Z.of_nat i) |}
    else None.
Proof.
  intros Hc. unfold visible.
  pose proof (window_bounds _ _ Hc) as Hw.
  destruct (window (selectedWordIndex s) (js_length (words s)))
    as [start end_].
  destruct Hw as (H1 & H2 & H3 & _).
  rewrite js_slice_inside by assumption.
  rewrite list_lookup_imap, lookup_take, lookup_drop.
  destruct (decide (i < Z.to_nat (end_ - start))%nat) as [Hi|Hi];
    [|reflexivity].
  unfold js_get. destruct (Z.ltb_spec (start + Z.of_nat i) 0); [lia|].
  replace (Z.to_nat (start + Z.of_nat i)) with (Z.to_nat start + i)%nat
    by lia.
  destruct (lookup_lt_is_Some_2 (words s) (Z.to_nat start + i)) as [w Hw].
  { unfold js_length, jsstr in *. lia. }
  unfold jsstr in *. rewrite !Hw. reflexivity.
Qed.

(** X14.  The words on screen.  With the cursor in [0, words.length] the
    component shows [min(words.length, 6)] consecutive words of the
    sentence, each under its index in the sentence; the word under the
    cursor is among them and it is the only one drawn as selected; with
    the cursor past the end (a prediction is awaited) no word is drawn
    as selected. *)
Theorem selected_word_is_on_screen (s : State) :
  cursor_in_range s →
  js_length (visible s) = Z.min (js_length (words s)) 6
  ∧ (∀ sp, sp ∈ visible s →
       0 <= actualIndex sp < js_length (words s)
       ∧ shown sp = js_get (words s) (actualIndex sp)
       ∧ (selected sp = true ↔ actualIndex sp = selectedWordIndex s))
  ∧ (∀ i j sp1 sp2,
       visible s !! i = Some sp1 → visible s !! j = Some sp2 →
       actualIndex sp2 - actualIndex sp1 = Z.of_nat j - Z.of_nat i)
  ∧ (selectedWordIndex s < js_length (words s) →
     {| actualIndex := selectedWordIndex s;
        shown := js_get (words s) (selectedWordIndex s);
        selected := true |} ∈ visible s)
  ∧ (selectedWordIndex s = js_length (words s) →
     ∀ sp, sp ∈ visible s → selected sp = false).
Proof.
  intros Hc.
  pose proof (window_bounds _ _ Hc) as Hw.
  pose proof (λ i, visible_lookup s i Hc) as Hl.
  assert (Hlen : length (visible s)
                 = length (js_slice (words s)
                             (window (selectedWordIndex s)
                                (js_length (words s))).1
                             (window (selectedWordIndex s)
                                (js_length (words s))).2)).
  { unfold visible.
    destruct (window (selectedWordIndex s) (js_length (words s))).
    apply length_imap. }
  destruct (window (selectedWordIndex s) (js_length (words s)))
    as [start end_].
  destruct Hw as (H1 & H2 & H3 & H4). simpl in Hlen.
  unfold maxVisible in H3.
  assert (Hsp : ∀ sp, sp ∈ visible s →
            ∃ i, (i < Z.to_nat (end_ - start))%nat
                 ∧ sp = {| actualIndex := start + Z.of_nat i;
                           shown := js_get (words s) (start + Z.of_nat i);
                           selected :=
                             bool_decide
                               (selectedWordIndex s = start + Z.of_nat i) |}).
  { intros sp Hin. apply list_elem_of_lookup in Hin as [i Hi].
    rewrite Hl in Hi. exists i.
    destruct (decide (i < Z.to_nat (end_ - start))%nat); [|discriminate].
    split; [assumption|]. congruence. }
  split; [|split; [|split; [|split]]].
  - unfold js_length at 1. rewrite Hlen, js_slice_inside by assumption.
    rewrite length_take, length_drop. unfold js_length, jsstr in *. lia.
  - intros sp Hin. destruct (Hsp sp Hin) as (i & Hi & ->). simpl.
    split; [lia|]. split; [reflexivity|].
    rewrite bool_decide_eq_true. split; intros; congruence.
  - intros i j sp1 sp2 Hi Hj. rewrite Hl in Hi, Hj.
    destruct (decide (i < Z.to_nat (end_ - start))%nat); [|discriminate].
    destruct (decide (j < Z.to_nat (end_ - start))%nat); [|discriminate].
    injection Hi as <-. injection Hj as <-. simpl. lia.
  - intros Hlt. specialize (H4 Hlt).
    apply list_elem_of_lookup.
    exists (Z.to_nat (selectedWordIndex s - start)).
    rewrite Hl. rewrite decide_True by lia.
    replace (start + Z.of_nat (Z.to_nat (selectedWordIndex s - start)))
      with (selectedWordIndex s) by lia.
    rewrite bool_decide_eq_true_2 by reflexivity. reflexivity.
  - intros Heq sp Hin. destruct (Hsp sp Hin) as (i & Hi & ->). simpl.
    apply bool_decide_eq_false. lia.
Qed.

Lemma selected_word_is_on_screen_witness :
  js_length (visible mounted) = Z.min (js_length (words mounted)) 6.
Proof.
  refine (proj1 (selected_word_is_on_screen mounted _)).
  vm_compute. split; discriminate.
Defined.

End DisplayFacts.

(** * The encoder sketch *)

Module SketchFacts.

Import Bridge Sketch BridgeFacts.

(** ** The quadrature decoder *)

Ltac mod_lia := Z.div_mod_to_equations; lia.

Lemma wrap_long_id z : - 2 ^ 31 <= z < 2 ^ 31 → wrap_long z = z.
Proof. intros H. unfold wrap_long. rewrite Z.mod_small; lia. Qed.

Lemma pins_mod phase : pins phase = pins (phase `mod` 4).
Proof. unfold pins. rewrite Z.mod_mod by lia. reflexivity. Qed.

Lemma state_of_mod phase : state_of phase = state_of (phase `mod` 4).
Proof. unfold state_of. rewrite pins_mod. reflexivity. Qed.

Lemma phase_cases phase :
  phase `mod` 4 = 0 ∨ phase `mod` 4 = 1
  ∨ phase `mod` 4 = 2 ∨ phase `mod` 4 = 3.
Proof. pose proof (Z.mod_pos_bound phase 4). lia. Qed.

Lemma phase_add phase d c :
  phase `mod` 4 = c → (phase + d) `mod` 4 = (c + d) `mod` 4.
Proof. intros <-. rewrite Zplus_mod_idemp_l. reflexivity. Qed.

Lemma phase_sub phase d c :
  phase `mod` 4 = c → (phase - d) `mod` 4 = (c - d) `mod` 4.
Proof. intros <-. rewrite Zminus_mod_idemp_l. reflexivity. Qed.

(** A read one step away counts the step. *)
Lemma read_one_step phase d e :
  encoderLastState e = state_of phase → -1 <= d <= 1 →
  - 2 ^ 31 < encoderPosition e < 2 ^ 31 - 1 →
  readEncoder (pins (phase + d)).1 (pins (phase + d)).2 e
  = {| encoderPosition := encoderPosition e + d;
       encoderLastState := state_of (phase + d) |}.
Proof.
  intros Hlast Hd Hrange. destruct e as [p last]. simpl in *.
  rewrite state_of_mod in Hlast. rewrite (state_of_mod (phase + d)).
  rewrite (pins_mod (phase + d)).
  assert (Hp : wrap_long (p + 1) = p + 1) by (apply wrap_long_id; lia).
  assert (Hm : wrap_long (p - 1) = p - 1) by (apply wrap_long_id; lia).
  assert (Hd' : d = -1 ∨ d = 0 ∨ d = 1) by lia.
  destruct (phase_cases phase) as [H|[H|[H|H]]];
    destruct Hd' as [-> | [-> | ->]];
    rewrite H in Hlast; subst last;
    rewrite (phase_add _ _ _ H);
    unfold readEncoder; cbn; rewrite ?Hp, ?Hm, ?Z.add_0_r; reflexivity.
Qed.

Lemma polled_steps steps : ∀ phase e,
  encoderLastState e = state_of phase →
  Forall (λ d, -1 <= d <= 1) steps →
  - 2 ^ 31 < encoderPosition e - Z.of_nat (length steps) →
  encoderPosition e + Z.of_nat (length steps) < 2 ^ 31 - 1 →
  polled phase steps e
  = {| encoderPosition := encoderPosition e + turned_by steps;
       encoderLastState := state_of (phase + turned_by steps) |}.
Proof.
  induction steps as [|d steps IH]; intros phase e Hlast Hsteps Hlo Hhi.
  - simpl. rewrite !Z.add_0_r, <- Hlast. destruct e; reflexivity.
  - apply Forall_cons in Hsteps as [Hd Hsteps].
    rewrite length_cons, Nat2Z.inj_succ in Hlo, Hhi.
    change (polled phase (d :: steps) e)
      with (polled (phase + d) steps
              (readEncoder (pins (phase + d)).1 (pins (phase + d)).2 e)).
    rewrite read_one_step by (assumption || lia).
    rewrite IH by (simpl; (assumption || lia || reflexivity)).
    simpl. f_equal; [lia|f_equal; lia].
Qed.

(** X15.  The decoder counts the turn of a polled encoder.  When the
    encoder is read after each quarter period of the signal at the
    latest, so that each read finds the state of the last read, the next
    state clockwise or the next state counter-clockwise, the counter
    changes by exactly the number of quarter periods turned clockwise
    less those turned counter-clockwise, and the state kept is the one
    of the pins; the counter is taken not to leave the range of a
    [long]. *)
Theorem polled_counter_follows_the_turn
    (phase : Z) (steps : list Z) (e : Encoder) :
  encoderLastState e = state_of phase →
  Forall (λ d, -1 <= d <= 1) steps →
  - 2 ^ 31 < encoderPosition e - Z.of_nat (length steps) →
  encoderPosition e + Z.of_nat (length steps) < 2 ^ 31 - 1 →
  encoderPosition (polled phase steps e)
  = encoderPosition e + turned_by steps
  ∧ encoderLastState (polled phase steps e)
    = state_of (phase + turned_by steps).
Proof.
  intros Hlast Hsteps Hlo Hhi.
  rewrite polled_steps by assumption. split; reflexivity.
Qed.

Lemma polled_counter_follows_the_turn_witness :
  encoderPosition (polled 0 [1; 1; 1; 1; 1; -1; 0; 1] (setup false false))
  = 0 + turned_by [1; 1; 1; 1; 1; -1; 0; 1].
Proof.
  refine (proj1 (polled_counter_follows_the_turn 0 [1; 1; 1; 1; 1; -1; 0; 1]
                   (setup false false) eq_refl _ _ _)).
  - repeat constructor; discriminate.
  - reflexivity.
  - reflexivity.
Defined.

(** X16.  A contact that bounces does not move the counter: a read of
    any state of the pins followed by a read of the state there was
    before leaves the counter and the state kept as they were, whether
    the state in between is a neighbour (counted one way, then the
    other) or not (not counted at all). *)
Theorem bounce_leaves_the_counter (clk dt clk' dt' : bool) (e : Encoder) :
  encoderLastState e = encoderLastState (setup clk dt) →
  - 2 ^ 31 < encoderPosition e < 2 ^ 31 - 1 →
  readEncoder clk dt (readEncoder clk' dt' e) = e.
Proof.
  intros Hlast Hrange. destruct e as [p last].
  cbn [encoderPosition encoderLastState] in Hrange, Hlast.
  assert (Hp : wrap_long (p + 1) = p + 1) by (apply wrap_long_id; simpl; lia).
  assert (Hm : wrap_long (p - 1) = p - 1) by (apply wrap_long_id; simpl; lia).
  assert (Hpm : wrap_long (p + 1 - 1) = p)
    by (rewrite wrap_long_id; simpl; lia).
  assert (Hmp : wrap_long (p - 1 + 1) = p)
    by (rewrite wrap_long_id; simpl; lia).
  destruct clk, dt; cbv in Hlast; subst last; destruct clk', dt';
    cbv - [wrap_long Z.add Z.sub]; rewrite ?Hp, ?Hm, ?Hpm, ?Hmp; reflexivity.
Qed.

Lemma bounce_leaves_the_counter_witness :
  let e := {| encoderPosition := 7; encoderLastState := 1 |} in
  readEncoder false true (readEncoder true true e) = e.
Proof.
  intros e. apply (bounce_leaves_the_counter false true true true e).
  - reflexivity.
  - split; reflexivity.
Defined.

(** ** Reads at the changes of CLK only *)

(** Between two changes of CLK of a steady turn the state changes in
    both pins, which the decoder counts as no step.  Turning clockwise
    CLK changes on the way to an even phase, turning counter-clockwise
    on the way to an odd one. *)
Lemma steady_turn_is_missed d a n : ∀ phase e,
  d = 1 ∧ a = 0 ∨ d = -1 ∧ a = 1 →
  (phase `mod` 2 = a ∧ encoderLastState e = state_of phase)
  ∨ (phase `mod` 2 = 1 - a ∧ encoderLastState e = state_of (phase - d)) →
  encoderPosition (on_clk_change phase (replicate n d) e)
  = encoderPosition e.
Proof.
  induction n as [|n IH]; intros phase e Hd H; [reflexivity|].
  change (on_clk_change phase (replicate (S n) d) e)
    with (on_clk_change (phase + d) (replicate n d)
            (if negb (eqb (pins phase).1 (pins (phase + d)).1)
             then readEncoder (pins (phase + d)).1 (pins (phase + d)).2 e
             else e)).
  destruct e as [p last]. simpl in H.
  assert (Hnext :
    ((phase + d) `mod` 2 = a
     ∧ encoderLastState
         (if negb (eqb (pins phase).1 (pins (phase + d)).1)
          then readEncoder (pins (phase + d)).1 (pins (phase + d)).2
                 {| encoderPosition := p; encoderLastState := last |}
          else {| encoderPosition := p; encoderLastState := last |})
       = state_of (phase + d)
     ∨ (phase + d) `mod` 2 = 1 - a
       ∧ encoderLastState
           (if negb (eqb (pins phase).1 (pins (phase + d)).1)
            then readEncoder (pins (phase + d)).1 (pins (phase + d)).2
                   {| encoderPosition := p; encoderLastState := last |}
            else {| encoderPosition := p; encoderLastState := last |})
         = state_of (phase + d - d))
    ∧ encoderPosition
        (if negb (eqb (pins phase).1 (pins (phase + d)).1)
         then readEncoder (pins (phase + d)).1 (pins (phase + d)).2
                {| encoderPosition := p; encoderLastState := last |}
         else {| encoderPosition := p; encoderLastState := last |})
      = p).
  { replace (phase + d - d) with phase by lia.
    rewrite (state_of_mod phase), (state_of_mod (phase - d)) in H.
    rewrite (state_of_mod phase), (state_of_mod (phase + d)).
    rewrite (pins_mod phase), (pins_mod (phase + d)).
    assert (Hpar : (phase + d) `mod` 2 = ((phase `mod` 4 + d) `mod` 4) `mod` 2
                   ∧ phase `mod` 2 = (phase `mod` 4) `mod` 2)
      by mod_lia.
    destruct Hpar as [Hpar1 Hpar2]. rewrite Hpar1. rewrite Hpar2 in H.
    destruct (phase_cases phase) as [Hc|[Hc|[Hc|Hc]]];
      rewrite (phase_add _ d _ Hc); rewrite (phase_sub _ d _ Hc) in H;
      rewrite Hc in *; destruct Hd as [[-> ->] | [-> ->]];
      destruct H as [[Hp Hlast] | [Hp Hlast]];
      cbv in Hp; try discriminate Hp; cbv in Hlast; subst last; vm_compute;
      (split; [|reflexivity]);
      first [left; split; reflexivity | right; split; reflexivity]. }
  destruct Hnext as [Hnext Hpos]. rewrite (IH _ _ Hd Hnext). exact Hpos.
Qed.

(** X17.  Read at the changes of CLK only, the decoder misses a steady
    turn.  Between two changes of CLK the other pin changes once, so
    each read finds a state that differs from the one kept in both pins,
    which the decoder counts as no step: however many quarter periods
    the encoder is turned one way, the counter changes by one at most
    (the first read, when the turn starts just before a change of CLK),
    and not at all when the turn starts just after one, which is at an
    even phase clockwise and at an odd phase counter-clockwise.  An
    encoder polled at every step has the same turn counted in full. *)
Theorem clk_change_reads_miss_a_steady_turn
    (phase : Z) (n : nat) (e : Encoder) :
  encoderLastState e = state_of phase →
  - 2 ^ 31 < encoderPosition e < 2 ^ 31 - 1 →
  let clockwise := on_clk_change phase (replicate n 1) e in
  let counter_clockwise := on_clk_change phase (replicate n (-1)) e in
  turned_by (replicate n 1) = Z.of_nat n
  ∧ turned_by (replicate n (-1)) = - Z.of_nat n
  ∧ 0 <= encoderPosition clockwise - encoderPosition e <= 1
  ∧ -1 <= encoderPosition counter_clockwise - encoderPosition e <= 0
  ∧ (phase `mod` 2 = 0 → encoderPosition clockwise = encoderPosition e)
  ∧ (phase `mod` 2 = 1 →
     encoderPosition counter_clockwise = encoderPosition e).
Proof.
  intros Hlast Hrange clockwise counter_clockwise.
  assert (Hsum : ∀ d, turned_by (replicate n d) = d * Z.of_nat n).
  { intros d. unfold turned_by. induction n as [|n IH]; [simpl; lia|].
    simpl replicate. simpl foldr. rewrite IH. lia. }
  assert (Hstep : ∀ d a, d = 1 ∧ a = 0 ∨ d = -1 ∧ a = 1 →
            (phase `mod` 2 = a →
             encoderPosition (on_clk_change phase (replicate n d) e)
             = encoderPosition e)
            ∧ (encoderPosition (on_clk_change phase (replicate n d) e)
               = encoderPosition e
               ∨ encoderPosition (on_clk_change phase (replicate n d) e)
                 = encoderPosition e + d)).
  { intros d a Hd.
    assert (Hsame : phase `mod` 2 = a →
              encoderPosition (on_clk_change phase (replicate n d) e)
              = encoderPosition e).
    { intros Hpar. apply (steady_turn_is_missed d a); auto. }
    split; [exact Hsame|].
    destruct (Z.eq_dec (phase `mod` 2) a) as [Hpar|Hpar]; [left; auto|].
    destruct n as [|n]; [left; reflexivity|].
    change (on_clk_change phase (replicate (S n) d) e)
      with (on_clk_change (phase + d) (replicate n d)
              (if negb (eqb (pins phase).1 (pins (phase + d)).1)
               then readEncoder (pins (phase + d)).1 (pins (phase + d)).2 e
               else e)).
    assert (Hclk : negb (eqb (pins phase).1 (pins (phase + d)).1) = true).
    { rewrite (pins_mod phase), (pins_mod (phase + d)).
      destruct (phase_cases phase) as [Hc|[Hc|[Hc|Hc]]];
        destruct Hd as [[-> ->] | [-> ->]];
        try (exfalso; mod_lia);
        rewrite (phase_add _ _ _ Hc), Hc; reflexivity. }
    rewrite Hclk, read_one_step
      by (assumption || destruct Hd as [[-> _] | [-> _]]; lia).
    right.
    rewrite (steady_turn_is_missed d a); [reflexivity|exact Hd|].
    left. split; [destruct Hd as [[-> ->] | [-> ->]]; mod_lia|reflexivity]. }
  destruct (Hstep 1 0 (or_introl (conj eq_refl eq_refl))) as [C0 C1].
  destruct (Hstep (-1) 1 (or_intror (conj eq_refl eq_refl))) as [D0 D1].
  fold clockwise in C0, C1. fold counter_clockwise in D0, D1.
  rewrite !Hsum. repeat split; try lia; assumption.
Qed.

Lemma clk_change_reads_miss_a_steady_turn_witness :
  encoderPosition (on_clk_change 0 (replicate 400 1) (setup false false))
  = encoderPosition (setup false false).
Proof.
  refine (proj1 (proj2 (proj2 (proj2 (proj2
            (clk_change_reads_miss_a_steady_turn 0 400 (setup false false)
               eq_refl _))))) eq_refl).
  split; reflexivity.
Defined.

(** ** The line printed and the line parsed *)

#[local] Open Scope string_scope.

Lemma list_ascii_of_string_app a b :
  list_ascii_of_string (a ++ b)
  = (list_ascii_of_string a ++ list_ascii_of_string b)%list.
Proof.
  induction a as [|c a IH]; [reflexivity|].
  rewrite append_cons. simpl. rewrite IH. reflexivity.
Qed.

Lemma no_space_app a b : no_space a → no_space b → no_space (a ++ b).
Proof.
  unfold no_space. rewrite list_ascii_of_string_app.
  intros Ha Hb. apply Forall_app. split; assumption.
Qed.

Lemma trim_start_no_space s : no_space s → trim_start s = s.
Proof.
  intros H. destruct s as [|c s]; [reflexivity|].
  apply Forall_cons in H as [Hc _]. simpl. rewrite Hc. reflexivity.
Qed.

Lemma reverse_string_no_space s : no_space s → no_space (reverse_string s).
Proof.
  unfold no_space, reverse_string.
  rewrite list_ascii_of_string_of_list_ascii. apply Forall_reverse.
Qed.

Lemma reverse_string_involutive s : reverse_string (reverse_string s) = s.
Proof.
  unfold reverse_string.
  rewrite list_ascii_of_string_of_list_ascii, reverse_involutive.
  apply string_of_list_ascii_of_string.
Qed.

(** [trim()] leaves a line without white space as it is. *)
Lemma trim_no_space s : no_space s → trim s = s.
Proof.
  intros H. unfold trim. rewrite (trim_start_no_space s H).
  rewrite trim_start_no_space by apply reverse_string_no_space, H.
  apply reverse_string_involutive.
Qed.

Lemma all_digits_no_space d : all_digits d → no_space d.
Proof.
  unfold all_digits, no_space. intros H. eapply Forall_impl; [exact H|].
  intros c Hc. unfold is_digit, is_space in *. cbv zeta in *.
  apply andb_true_iff in Hc as [H1 H2].
  apply Nat.leb_le in H1, H2.
  apply orb_false_iff. split; [apply orb_false_iff; split|].
  - apply andb_false_iff. right. apply Nat.leb_gt. lia.
  - apply Nat.eqb_neq. lia.
  - apply Nat.eqb_neq. lia.
Qed.

Lemma all_digits_app a b : all_digits a → all_digits b → all_digits (a ++ b).
Proof.
  unfold all_digits. rewrite list_ascii_of_string_app.
  intros Ha Hb. apply Forall_app. split; assumption.
Qed.

Lemma digit_char_spec d :
  (0 <= d <= 9)%Z →
  is_digit (digit_char d) = true
  ∧ (Z.of_nat (nat_of_ascii (digit_char d)) - 48 = d)%Z.
Proof.
  intros H.
  assert (Hd : (d = 0 ∨ d = 1 ∨ d = 2 ∨ d = 3 ∨ d = 4 ∨ d = 5 ∨ d = 6
                ∨ d = 7 ∨ d = 8 ∨ d = 9)%Z) by lia.
  repeat (destruct Hd as [-> | Hd]; [split; reflexivity|]).
  subst d. split; reflexivity.
Qed.

Lemma append_nil_r (s : string) : s ++ "" = s.
Proof. induction s as [|c s IH]; [reflexivity|]. rewrite append_cons, IH. reflexivity. Qed.

Lemma digits_value_cons c s acc :
  digits_value (String c s) acc
  = if is_digit c
    then digits_value s (10 * acc + (Z.of_nat (nat_of_ascii c) - 48))%Z
    else acc.
Proof. reflexivity. Qed.

(** The digits printed are those of the number: read back after any
    digits already read, they continue the number read. *)
Lemma printNumber_digits fuel : ∀ n buffer,
  (0 < fuel)%nat → (0 <= n < 10 ^ Z.of_nat fuel)%Z →
  ∃ ds k,
    printNumber fuel n buffer = ds ++ buffer
    ∧ all_digits ds ∧ ds ≠ ""
    ∧ ∀ acc rest,
        digits_value (ds ++ rest) acc
        = digits_value rest (acc * 10 ^ Z.of_nat k + n)%Z.
Proof.
  induction fuel as [|fuel IH]; intros n buffer Hfuel Hn; [lia|].
  assert (Hd : (0 <= n `mod` 10 <= 9)%Z).
  { pose proof (Z.mod_pos_bound n 10). lia. }
  destruct (digit_char_spec _ Hd) as [Hdig Hval].
  simpl printNumber.
  set (c := digit_char (n `mod` 10)) in *. clearbody c.
  destruct (Z.eqb_spec (n / 10) 0) as [Hq|Hq].
  - exists (String c ""), 1%nat.
    split; [reflexivity|]. split.
    { apply all_digits_cons. split; [exact Hdig|apply all_digits_nil]. }
    split; [discriminate|].
    intros acc rest. rewrite append_cons.
    change ("" ++ rest) with rest.
    rewrite digits_value_cons, Hdig, Hval. f_equal.
    change (10 ^ Z.of_nat 1)%Z with 10%Z.
    pose proof (Z.div_mod n 10). lia.
  - assert (Hfuel' : (0 < fuel)%nat).
    { destruct fuel; [|lia]. exfalso. apply Hq.
      apply Z.div_small. simpl in Hn. lia. }
    assert (Hn' : (0 <= n / 10 < 10 ^ Z.of_nat fuel)%Z).
    { split; [apply Z.div_pos; lia|].
      apply Z.div_lt_upper_bound; [lia|].
      rewrite Nat2Z.inj_succ, Z.pow_succ_r in Hn by lia. lia. }
    destruct (IH (n / 10)%Z (String c buffer) Hfuel' Hn')
      as (ds & k & E & Hds & Hne & Hread).
    exists (ds ++ String c ""), (S k).
    split; [rewrite E, append_assoc; reflexivity|]. split.
    { apply all_digits_app; [exact Hds|].
      apply all_digits_cons. split; [exact Hdig|apply all_digits_nil]. }
    split.
    { destruct ds; [contradiction|discriminate]. }
    intros acc rest. rewrite append_assoc, append_cons.
    change ("" ++ rest) with rest.
    rewrite Hread, digits_value_cons, Hdig, Hval. f_equal.
    rewrite Nat2Z.inj_succ, Z.pow_succ_r by lia.
    pose proof (Z.div_mod n 10). lia.
Qed.

Lemma print_long_spec n :
  (- 2 ^ 31 <= n < 2 ^ 31)%Z →
  is_int (print_long n) ∧ parseInt (print_long n) = n
  ∧ no_space (print_long n).
Proof.
  intros Hn. unfold print_long.
  destruct (Z.ltb_spec n 0) as [Hneg|Hpos].
  - destruct (printNumber_digits 10 (- n) "") as (ds & k & E & Hds & Hne & Hread);
      [lia|simpl; lia|].
    rewrite E, append_nil_r. split; [|split].
    + exists ds. auto.
    + change (parseInt ("-" ++ ds)) with (- digits_value ds 0)%Z.
      rewrite <- (append_nil_r ds), Hread. simpl. lia.
    + apply (no_space_app "-" ds); [repeat constructor|].
      apply all_digits_no_space, Hds.
  - destruct (printNumber_digits 10 n "") as (ds & k & E & Hds & Hne & Hread);
      [lia|simpl; lia|].
    rewrite E, append_nil_r. split; [|split].
    + exists ds. auto.
    + destruct ds as [|c ds]; [contradiction|].
      pose proof Hds as Hc. apply all_digits_cons in Hc as [Hc _].
      unfold parseInt.
      rewrite bool_decide_eq_false_2 by (apply digit_not_minus, Hc).
      rewrite <- (append_nil_r (String c ds)), Hread. simpl. lia.
    + apply all_digits_no_space, Hds.
Qed.

(** X18.  What the sketch prints, the server reads.  For all values of
    the two counters (any [long]), the line that one pass of [loop()]
    prints is left as it is by [trim()], matches the frame pattern and
    parses to the two counters printed; after the line the handler
    stores exactly these counters. *)
Theorem printed_line_parses_back (c1 c2 : Z) (h : Handler) :
  (- 2 ^ 31 <= c1 < 2 ^ 31)%Z → (- 2 ^ 31 <= c2 < 2 ^ 31)%Z →
  trim (loop_line c1 c2) = loop_line c1 c2
  ∧ is_frame (loop_line c1 c2)
  ∧ parse (trim (loop_line c1 c2))
    = Some {| encoder1 := c1; encoder2 := c2 |}
  ∧ (on_data (loop_line c1 c2) h).1
    = {| currentData := {| encoder1 := c1; encoder2 := c2 |};
         wss := wss h |}.
Proof.
  intros H1 H2.
  destruct (print_long_spec c1 H1) as (I1 & P1 & S1).
  destruct (print_long_spec c2 H2) as (I2 & P2 & S2).
  assert (Htrim : trim (loop_line c1 c2) = loop_line c1 c2).
  { apply trim_no_space. unfold loop_line.
    apply (no_space_app "E1:"); [repeat constructor|].
    apply no_space_app; [exact S1|].
    apply (no_space_app ",E2:"); [repeat constructor|exact S2]. }
  assert (Hparse : parse (trim (loop_line c1 c2))
                   = Some {| encoder1 := c1; encoder2 := c2 |}).
  { rewrite Htrim. unfold loop_line.
    rewrite (parse_frame _ _ I1 I2), P1, P2. reflexivity. }
  split; [exact Htrim|]. split.
  { exists (print_long c1), (print_long c2). auto. }
  split; [exact Hparse|].
  unfold on_data. rewrite Hparse. cbv zeta.
  destruct h as [[d1 d2] w]. simpl.
  destruct (bool_decide (d1 = c1)) eqn:E1;
    destruct (bool_decide (d2 = c2)) eqn:E2; simpl; try reflexivity.
  apply bool_decide_eq_true in E1, E2. subst. reflexivity.
Qed.

Lemma printed_line_parses_back_witness :
  parse (trim (loop_line (-120) 7))
  = Some {| encoder1 := -120; encoder2 := 7 |}.
Proof.
  refine (proj1 (proj2 (proj2
            (printed_line_parses_back (-120) 7
               {| currentData := {| encoder1 := 0; encoder2 := 0 |};
                  wss := None |} _ _)))).
  - split; [discriminate|reflexivity].
  - split; [discriminate|reflexivity].
Defined.

End SketchFacts.

(** * From the serial line to the dial *)

Module RelayFacts.

Import Frame Bridge Session Relay FrameFacts BridgeFacts FrameMore.

(** ** The sends of a stream of lines *)

(** The three ways a line is handled. *)
Lemma on_data_cases line h :
  (parse (trim line) = None ∧ on_data line h = (h, []))
  ∨ (parse (trim line) = Some (currentData h) ∧ on_data line h = (h, []))
  ∨ (∃ d, parse (trim line) = Some d ∧ d ≠ currentData h
          ∧ on_data line h
            = ({| currentData := d; wss := wss h |},
               (λ c, {| receiver := ident c; data := d |})
                 <$> open_viewers h)).
Proof.
  unfold on_data. destruct (parse (trim line)) as [d|]; [|left; auto].
  right. destruct h as [[c1 c2] w], d as [d1 d2]. simpl.
  destruct (bool_decide (c1 = d1)) eqn:E1;
    destruct (bool_decide (c2 = d2)) eqn:E2; simpl;
    try apply bool_decide_eq_true in E1; try apply bool_decide_eq_true in E2;
    try apply bool_decide_eq_false in E1;
    try apply bool_decide_eq_false in E2.
  1: { left. subst. auto. }
  all: right; eexists; split; [reflexivity|]; split; [congruence|];
    unfold broadcast, open_viewers; simpl; destruct w; reflexivity.
Qed.

Lemma feed_cons line lines h :
  feed (line :: lines) h
  = ((feed lines (on_data line h).1).1,
     ((on_data line h).2 ++ (feed lines (on_data line h).1).2)%list).
Proof.
  simpl. destruct (on_data line h) as [h1 out1]. simpl.
  destruct (feed lines h1) as [h2 out2]. reflexivity.
Qed.

Lemma sent_to_app c out1 out2 :
  sent_to c (out1 ++ out2) = (sent_to c out1 ++ sent_to c out2)%list.
Proof. apply filter_app. Qed.

(** Of a broadcast a viewer that is open gets the pair, once or more
    (once, as no two viewers are the same connection). *)
Lemma sent_to_broadcast c d (viewers : list Client) :
  c ∈ viewers →
  ∃ k, sent_to c ((λ c, {| receiver := ident c; data := d |}) <$> viewers)
       = replicate (S k) {| receiver := ident c; data := d |}.
Proof.
  unfold sent_to. intros Hin.
  assert (Hall : ∃ k,
            filter (λ snd, receiver snd = ident c)
              ((λ c, {| receiver := ident c; data := d |}) <$> viewers)
            = replicate k {| receiver := ident c; data := d |}
            ∧ (c ∈ viewers → (0 < k)%nat)).
  { clear Hin. induction viewers as [|v viewers (k & IH & Hk)].
    - exists 0%nat. split; [reflexivity|]. intros H. inversion H.
    - rewrite fmap_cons, filter_cons. simpl.
      destruct (decide (ident v = ident c)) as [E|E].
      + exists (S k). rewrite IH, E. split; [reflexivity|lia].
      + exists k. split; [exact IH|]. intros H.
        apply elem_of_cons in H as [->|H]; [contradiction|auto]. }
  destruct Hall as (k & E & Hk). specialize (Hk Hin).
  destruct k as [|k]; [lia|]. exists k. exact E.
Qed.

Lemma view_app c held out1 out2 :
  view c held (out1 ++ out2) = view c (view c held out1) out2.
Proof. unfold view. rewrite sent_to_app, foldl_app. reflexivity. Qed.

Lemma view_replicate c held k d :
  foldl (λ _ snd, data snd) held
    (replicate (S k) {| receiver := ident c; data := d |})
  = d.
Proof.
  revert held. induction k as [|k IH]; intros held; [reflexivity|].
  change (replicate (S (S k)) ?x) with (x :: replicate (S k) x).
  change (foldl ?f held (?x :: ?l)) with (foldl f (f held x) l).
  apply IH.
Qed.

Lemma feed_viewers lines : ∀ h,
  wss (feed lines h).1 = wss h
  ∧ Forall (λ snd, ∃ c line,
              c ∈ open_viewers h ∧ receiver snd = ident c
              ∧ line ∈ lines ∧ parse (trim line) = Some (data snd))
      (feed lines h).2.
Proof.
  induction lines as [|line lines IH]; intros h.
  - split; [reflexivity|constructor].
  - rewrite feed_cons. simpl.
    destruct (IH (on_data line h).1) as [Hw Hout].
    assert (H1 : wss (on_data line h).1 = wss h
                 ∧ Forall (λ snd, ∃ c,
                             c ∈ open_viewers h ∧ receiver snd = ident c
                             ∧ parse (trim line) = Some (data snd))
                     (on_data line h).2).
    { destruct (on_data_cases line h) as [[_ E] | [[_ E] | (d & P & _ & E)]];
        rewrite E; simpl; split; try reflexivity; try constructor.
      apply Forall_fmap, Forall_forall. intros c Hc. simpl. eauto. }
    destruct H1 as [H1 Hout1]. split; [congruence|].
    apply Forall_app. split.
    + eapply Forall_impl; [exact Hout1|].
      intros snd (c & Hc & Hr & Hp). exists c, line.
      repeat split; try assumption. apply elem_of_cons. left. reflexivity.
    + eapply Forall_impl; [exact Hout|].
      intros snd (c & l & Hc & Hr & Hl & Hp). exists c, l.
      unfold open_viewers in *. rewrite H1 in Hc.
      repeat split; try assumption. apply elem_of_cons. right. exact Hl.
Qed.

Lemma feed_view lines : ∀ h c,
  c ∈ open_viewers h →
  view c (currentData h) (feed lines h).2 = currentData (feed lines h).1.
Proof.
  induction lines as [|line lines IH]; intros h c Hc; [reflexivity|].
  rewrite feed_cons. simpl. rewrite view_app.
  destruct (on_data_cases line h) as [[_ E] | [[_ E] | (d & _ & _ & E)]];
    rewrite E; simpl.
  - apply IH, Hc.
  - apply IH, Hc.
  - destruct (sent_to_broadcast c d _ Hc) as [k Hk].
    unfold view at 2. rewrite Hk, view_replicate.
    apply (IH {| currentData := d; wss := wss h |}). exact Hc.
Qed.

(** X19.  The viewers hold the pair the server stores.  Whatever lines
    the serial port delivers, a viewer that is open, holds the stored
    pair at the start (it is sent on connection) and keeps the data of
    the last message it gets, holds the pair the handler stores at the
    end; the messages go to open viewers only, each carries the pair of
    one of the lines, and the set of viewers is not touched. *)
Theorem viewers_hold_the_stored_pair
    (lines : list string) (h : Handler) (c : Client) :
  c ∈ open_viewers h →
  view c (data (on_connection h c)) (feed lines h).2
  = currentData (feed lines h).1
  ∧ wss (feed lines h).1 = wss h
  ∧ Forall (λ snd, ∃ c line,
              c ∈ open_viewers h ∧ receiver snd = ident c
              ∧ line ∈ lines ∧ parse (trim line) = Some (data snd))
      (feed lines h).2.
Proof.
  intros Hc. split; [apply feed_view, Hc|apply feed_viewers].
Qed.

Lemma viewers_hold_the_stored_pair_witness :
  let c := {| ident := 1; readyState := OPEN |} in
  let h := {| currentData := {| encoder1 := 0; encoder2 := 0 |};
              wss := Some [{| ident := 0; readyState := CLOSED |}; c] |} in
  let lines := ["E1:1,E2:0"; "noise"; "E1:1,E2:0"; "E1:2,E2:-1"]%string in
  view c (data (on_connection h c)) (feed lines h).2
  = currentData (feed lines h).1.
Proof.
  intros c h lines.
  refine (proj1 (viewers_hold_the_stored_pair lines h c _)).
  vm_compute. apply list_elem_of_here.
Defined.

(** ** The component behind the change check *)

Lemma dispatch_counters e1 e2 s :
  let s' := dispatch (WsMessage (Encoder e1 e2)) s in
  needsSync s' = false ∧ lastEncoder1Ref s' = e1 ∧ lastEncoder2Ref s' = e2.
Proof.
  intros s'.
  pose proof (dispatch_fusion (WsMessage (Encoder e1 e2)) s) as F.
  fold s' in F. clearbody s'.
  change (handle (WsMessage (Encoder e1 e2)) s)
    with (ws_onmessage (Encoder e1 e2) s) in F.
  destruct (ws_onmessage_counters e1 e2 s) as (H1 & H2 & H3).
  destruct (fusion_counters _ _ F) as [C1 C2].
  rewrite (fusion_needsSync _ _ F), C1, C2. auto.
Qed.

(** A message with the counters the component has changes nothing. *)
Lemma same_counters_idle e1 e2 s :
  needsSync s = false → lastEncoder1Ref s = e1 → lastEncoder2Ref s = e2 →
  dispatch (WsMessage (Encoder e1 e2)) s = s.
Proof.
  intros Hs <- <-. apply dispatch_idle. simpl. rewrite Hs.
  unfold encoder1_tick.
  rewrite bool_decide_eq_false_2 by (intros H; apply H; reflexivity).
  unfold encoder2_tick.
  rewrite bool_decide_eq_false_2 by (intros H; apply H; reflexivity).
  reflexivity.
Qed.

Lemma run_events_cons e es s :
  run_events (e :: es) s = run_events es (dispatch e s).
Proof. reflexivity. Qed.

Lemma repeated_idle k e1 e2 : ∀ s,
  needsSync s = false → lastEncoder1Ref s = e1 → lastEncoder2Ref s = e2 →
  run_events (replicate k (WsMessage (Encoder e1 e2))) s = s.
Proof.
  induction k as [|k IH]; intros s H0 H1 H2; [reflexivity|].
  rewrite replicate_S, run_events_cons.
  rewrite same_counters_idle by assumption. apply IH; assumption.
Qed.

Lemma repeated_message k e1 e2 s :
  run_events (replicate (S k) (WsMessage (Encoder e1 e2))) s
  = dispatch (WsMessage (Encoder e1 e2)) s.
Proof.
  rewrite replicate_S, run_events_cons.
  destruct (dispatch_counters e1 e2 s) as (H1 & H2 & H3).
  apply repeated_idle; assumption.
Qed.

Lemma run_events_app es1 es2 s :
  run_events (es1 ++ es2) s = run_events es2 (run_events es1 s).
Proof.
  revert s. induction es1 as [|e es1 IH]; intros s; [reflexivity|].
  rewrite <- app_comm_cons, !run_events_cons. apply IH.
Qed.

Lemma relay_in_sync lines : ∀ h c s,
  c ∈ open_viewers h → in_sync h s →
  run_events (received <$> sent_to c (feed lines h).2) s
  = run_events (forwarded <$> pairs lines) s
  ∧ in_sync (feed lines h).1
      (run_events (forwarded <$> pairs lines) s).
Proof.
  induction lines as [|line lines IH]; intros h c s Hc Hs.
  - split; [reflexivity|exact Hs].
  - rewrite feed_cons. cbn [fst snd].
    rewrite sent_to_app, fmap_app, run_events_app.
    unfold pairs. cbn [omap list_omap]. fold (pairs lines).
    destruct Hs as (S0 & S1 & S2).
    destruct (on_data_cases line h) as [[P E] | [[P E] | (d & P & _ & E)]];
      rewrite E, P; cbn [fst snd].
    + apply IH; [exact Hc|repeat split; assumption].
    + rewrite fmap_cons, run_events_cons.
      change (forwarded (currentData h))
        with (WsMessage (Encoder (encoder1 (currentData h))
                           (encoder2 (currentData h)))).
      rewrite same_counters_idle by assumption.
      apply IH; [exact Hc|repeat split; assumption].
    + destruct (sent_to_broadcast c d _ Hc) as [k Hk]. rewrite Hk.
      rewrite fmap_replicate. unfold received at 2. cbn [data].
      rewrite repeated_message.
      rewrite fmap_cons, run_events_cons.
      change (forwarded d) with (WsMessage (Encoder (encoder1 d) (encoder2 d))).
      apply (IH {| currentData := d; wss := wss h |}); [exact Hc|].
      apply dispatch_counters.
Qed.

(** X20.  The change check of the server loses nothing.  A component
    that connects as a viewer (it gets the stored pair at once, which
    resynchronises it) and then gets only the messages the handler sends
    when a pair differs from the stored one ends in the same state as if
    the pair of every line that parses had been sent to it.  At the end
    the counters it has recorded are the pair the handler stores,
    whatever the lines were. *)
Theorem change_check_loses_nothing
    (lines : list string) (h : Handler) (c : Client) (s0 : State) :
  c ∈ open_viewers h →
  let connected :=
    dispatch (received (on_connection h c)) (dispatch WsOpen s0) in
  let s' := run_events (received <$> sent_to c (feed lines h).2) connected in
  let stored := currentData (feed lines h).1 in
  s' = run_events (forwarded <$> pairs lines) connected
  ∧ lastEncoder1Ref s' = encoder1 stored
  ∧ lastEncoder2Ref s' = encoder2 stored
  ∧ needsSync s' = false.
Proof.
  intros Hc connected s' stored.
  assert (Hsync : in_sync h connected).
  { apply dispatch_counters. }
  destruct (relay_in_sync lines h c connected Hc Hsync) as [E (R0 & R1 & R2)].
  fold s' in E. rewrite <- E in R0, R1, R2. auto.
Qed.

Lemma change_check_loses_nothing_witness :
  let c := {| ident := 1; readyState := OPEN |} in
  let h := {| currentData := {| encoder1 := 3; encoder2 := 0 |};
              wss := Some [c] |} in
  let lines := ["E1:4,E2:0"; "E1:4,E2:0"; "E1:5,E2:0"]%string in
  let connected :=
    dispatch (received (on_connection h c)) (dispatch WsOpen mounted) in
  lastEncoder1Ref
    (run_events (received <$> sent_to c (feed lines h).2) connected)
  = encoder1 (currentData (feed lines h).1).
Proof.
  intros c h lines connected.
  refine (proj1 (proj2 (change_check_loses_nothing lines h c mounted _))).
  vm_compute. apply list_elem_of_here.
Defined.

End RelayFacts.

(** * The variant provider route *)

Module RoutesFacts.

Import Frame Bridge Routes FrameFacts BridgeFacts.

#[local] Open Scope string_scope.

Lemma string_app_nil_r (s : string) : s ++ "" = s.
Proof.
  induction s as [|c s IH]; [reflexivity|]. rewrite append_cons, IH.
  reflexivity.
Qed.

Lemma js_split_word w : ∀ rest cur,
  spaceless w → js_split (w ++ rest) cur = js_split rest (cur ++ w).
Proof.
  induction w as [|c w IH]; intros rest cur Hw.
  - rewrite string_app_nil_r. reflexivity.
  - apply Forall_cons in Hw as [Hc Hw]. rewrite append_cons.
    cbn [js_split]. rewrite bool_decide_eq_false_2 by exact Hc.
    rewrite (IH _ _ Hw), append_assoc. reflexivity.
Qed.

Lemma concat_cons2 (w w2 : string) ws :
  String.concat " " (w :: w2 :: ws)
  = w ++ String " " (String.concat " " (w2 :: ws)).
Proof. reflexivity. Qed.

(** [split(' ')] takes a sentence joined by spaces apart again. *)
Lemma split_concat ws : ∀ w cur,
  Forall spaceless (w :: ws) →
  js_split (String.concat " " (w :: ws)) cur = (cur ++ w) :: ws.
Proof.
  induction ws as [|w2 ws IH]; intros w cur H.
  - apply Forall_cons in H as [Hw _].
    change (String.concat " " [w]) with w.
    rewrite <- (string_app_nil_r w) at 1. rewrite js_split_word by exact Hw.
    reflexivity.
  - apply Forall_cons in H as [Hw H]. rewrite concat_cons2.
    rewrite js_split_word by exact Hw. cbn [js_split].
    rewrite bool_decide_eq_true_2 by reflexivity.
    rewrite (IH w2 "" H). reflexivity.
Qed.

Lemma js_join_Some ws : js_join (Some <$> ws) = String.concat " " ws.
Proof.
  unfold js_join. rewrite <- list_fmap_compose. f_equal.
  induction ws as [|w ws IH]; [reflexivity|]. simpl. rewrite IH at 1.
  reflexivity.
Qed.

Lemma concat_snoc ws : ∀ w (x : string),
  String.concat " " ((w :: ws) ++ [x])
  = String.concat " " (w :: ws) ++ String " " x.
Proof.
  induction ws as [|w2 ws IH]; intros w x.
  - reflexivity.
  - change ((w :: w2 :: ws) ++ [x])%list with (w :: ((w2 :: ws) ++ [x]))%list.
    change (w :: (w2 :: ws) ++ [x])%list
      with (w :: w2 :: (ws ++ [x]))%list.
    rewrite !concat_cons2.
    change (w2 :: (ws ++ [x]))%list with ((w2 :: ws) ++ [x])%list.
    rewrite IH, append_assoc, append_cons. reflexivity.
Qed.

Lemma plain_words_spaceless ws : Forall plain_word ws → Forall spaceless ws.
Proof. intros H. eapply Forall_impl; [exact H|]. intros w [_ Hw]. exact Hw. Qed.

Lemma concat_not_empty w ws :
  plain_word w → String.concat " " (w :: ws) ≠ "".
Proof.
  intros [Hne _]. destruct w as [|c w]; [contradiction|].
  destruct ws; discriminate.
Qed.

(** X21.  The sentence the server puts in the prompt has the mask at the
    cursor.  For a sentence of words that are not empty and hold no
    space: the request the component sends for the variants of the word
    under the cursor gives, on the server, the sentence with exactly
    that word replaced by [[MASK]] and every other word in place; the
    request that asks for a new last word gives the sentence with
    [[MASK]] added at the end. *)
Theorem mask_is_at_the_cursor (r : State) (ws : list string) :
  words r = Some <$> ws → Forall plain_word ws →
  (0 <= selectedWordIndex r < js_length ws →
   variationsFetchedForIndex r ≠ Some (selectedWordIndex r) →
   ∃ f, pending (effect_variation r r) = (pending r ++ [f])%list
        ∧ maskedSentence (request f)
          = js_join
              (Some <$> <[Z.to_nat (selectedWordIndex r) := "[MASK]"]> ws))
  ∧ (ws ≠ [] → js_length ws <= selectedWordIndex r →
     isPredicting r = false →
     ∃ f, pending (effect_predict r r) = (pending r ++ [f])%list
          ∧ maskedSentence (request f)
            = js_join (Some <$> (ws ++ ["[MASK]"])%list)).
Proof.
  intros Hwords Hplain.
  pose proof (plain_words_spaceless ws Hplain) as Hsp.
  split.
  - intros Hsel Hfetch. unfold effect_variation.
    rewrite bool_decide_eq_true_2 by exact Hfetch. cbv zeta.
    eexists. split; [reflexivity|]. cbn [request].
    unfold maskedSentence. cbn [context position].
    rewrite Hwords, js_join_Some.
    destruct ws as [|w ws]; [unfold js_length in Hsel; simpl in Hsel; lia|].
    rewrite bool_decide_eq_true_2
      by (apply concat_not_empty; apply Forall_cons in Hplain as [H _];
          exact H).
    cbv zeta. rewrite (split_concat ws w "" Hsp).
    change ("" ++ w) with w.
    unfold js_set. destruct (Z.ltb_spec (selectedWordIndex r) 0); [lia|].
    rewrite length_fmap.
    destruct (Nat.ltb_spec (Z.to_nat (selectedWordIndex r))
                (length (w :: ws))) as [_|Hge];
      [|unfold js_length in Hsel; lia].
    rewrite <- list_fmap_insert, !js_join_Some. reflexivity.
  - intros Hne Hsel Hpred. unfold effect_predict.
    assert (Hlen : js_length (words r) = js_length ws).
    { rewrite Hwords. unfold js_length. rewrite length_fmap. reflexivity. }
    rewrite Hpred, Hlen.
    rewrite (proj2 (Z.leb_le _ _) Hsel). cbn [andb negb]. cbv zeta.
    eexists. split; [reflexivity|]. cbn [request].
    unfold maskedSentence. cbn [context position].
    rewrite Hwords, js_join_Some.
    destruct ws as [|w ws]; [contradiction|].
    change (String.concat " " (w :: ws) +:+ " [MASK]")
      with (String.concat " " (w :: ws) ++ String " " "[MASK]").
    rewrite <- concat_snoc.
    assert (Hsp' : Forall spaceless (w :: (ws ++ ["[MASK]"]))%list).
    { change (w :: (ws ++ ["[MASK]"]))%list
        with ((w :: ws) ++ ["[MASK]"])%list.
      apply Forall_app. split; [exact Hsp|].
      apply Forall_singleton. unfold spaceless. simpl.
      repeat constructor; discriminate. }
    rewrite bool_decide_eq_true_2
      by (apply (concat_not_empty w (ws ++ ["[MASK]"])%list);
          apply Forall_cons in Hplain as [H _]; exact H).
    cbv zeta.
    change ((w :: ws) ++ ["[MASK]"])%list
      with (w :: (ws ++ ["[MASK]"]))%list.
    rewrite (split_concat _ w "" Hsp'). change ("" ++ w) with w.
    unfold js_set, js_length.
    destruct (Z.ltb_spec (Z.of_nat (length (w :: ws))) 0); [lia|].
    rewrite Nat2Z.id, length_fmap.
    destruct (Nat.ltb_spec (length (w :: ws))
                (length (w :: (ws ++ ["[MASK]"]))%list)) as [_|Hge];
      [|simpl in Hge; rewrite length_app in Hge; simpl in Hge; lia].
    rewrite <- list_fmap_insert. do 2 f_equal.
    change (w :: (ws ++ ["[MASK]"]))%list
      with ((w :: ws) ++ ["[MASK]"])%list.
    rewrite insert_app_r_alt by lia. rewrite Nat.sub_diag. reflexivity.
Qed.

Lemma mask_is_at_the_cursor_witness :
  let r := resting (Some <$> ["a"; "b"; "c"]) 1 in
  ∃ f, pending (effect_variation r r) = (pending r ++ [f])%list
       ∧ maskedSentence (request f) = "a [MASK] c".
Proof.
  intros r.
  refine (proj1 (mask_is_at_the_cursor r ["a"; "b"; "c"] eq_refl _) _ _).
  - repeat constructor; discriminate.
  - split; [discriminate|reflexivity].
  - discriminate.
Defined.

(** ** The variants read from the answer *)

Lemma split_commas_word w : ∀ rest cur,
  Forall (λ c, c ≠ ","%char) (list_ascii_of_string w) →
  split_commas (w ++ rest) cur = split_commas rest (cur ++ w).
Proof.
  induction w as [|c w IH]; intros rest cur Hw.
  - rewrite string_app_nil_r. reflexivity.
  - apply Forall_cons in Hw as [Hc Hw]. rewrite append_cons.
    cbn [split_commas]. rewrite bool_decide_eq_false_2 by exact Hc.
    rewrite (IH _ _ Hw), append_assoc. reflexivity.
Qed.

Lemma concat_comma_cons2 (w w2 : string) ws :
  String.concat ", " (w :: w2 :: ws)
  = w ++ String "," (String " " (String.concat ", " (w2 :: ws))).
Proof. reflexivity. Qed.

Lemma clean_variant_parts v :
  clean_variant v →
  v ≠ "" ∧ Sketch.no_space v
  ∧ Forall (λ c, c ≠ ","%char) (list_ascii_of_string v).
Proof.
  intros [Hne H]. split; [exact Hne|]. unfold Sketch.no_space.
  split; (eapply Forall_impl; [exact H|]); intros c [H1 H2]; assumption.
Qed.

(** The pieces between the commas of a list joined by a comma and a
    space: all but the first start with the space. *)
Lemma split_commas_concat ws : ∀ w cur,
  Forall clean_variant (w :: ws) →
  split_commas (String.concat ", " (w :: ws)) cur
  = (cur ++ w) :: (String " " <$> ws).
Proof.
  induction ws as [|w2 ws IH]; intros w cur H.
  - apply Forall_cons in H as [Hw _].
    apply clean_variant_parts in Hw as (_ & _ & Hw).
    change (String.concat ", " [w]) with w.
    rewrite <- (string_app_nil_r w) at 1.
    rewrite split_commas_word by exact Hw. reflexivity.
  - apply Forall_cons in H as [Hw H]. rewrite concat_comma_cons2.
    apply clean_variant_parts in Hw as (_ & _ & Hw).
    rewrite split_commas_word by exact Hw. cbn [split_commas].
    rewrite bool_decide_eq_true_2 by reflexivity.
    rewrite bool_decide_eq_false_2 by discriminate.
    change ("" +:+ String " " "") with (String " " "").
    rewrite (IH w2 (String " " "") H). reflexivity.
Qed.

Lemma trim_after_space v : Sketch.no_space v → trim (String " " v) = v.
Proof.
  intros H. unfold trim.
  change (trim_start (String " " v)) with (trim_start v).
  apply (SketchFacts.trim_no_space v H).
Qed.

(** X23.  The answer of the language model is read as the list it is.
    The variants read from any answer are never empty strings; and an
    answer that is the list the prompt asks for, words without white
    space or comma joined by commas and spaces, is read as exactly these
    words in their order. *)
Theorem answer_is_read_as_its_list :
  (∀ text v, v ∈ variations_of text → v ≠ "")
  ∧ (∀ vs, vs ≠ [] → Forall clean_variant vs →
       variations_of (String.concat ", " vs) = vs).
Proof.
  split.
  - intros text v H. unfold variations_of in H.
    apply list_elem_of_filter in H as [H _]. exact H.
  - intros vs Hne Hvs. destruct vs as [|w ws]; [contradiction|].
    unfold variations_of. rewrite (split_commas_concat ws w "" Hvs).
    change ("" ++ w) with w. rewrite fmap_cons.
    pose proof Hvs as Hall. apply Forall_cons in Hvs as [Hw Hws].
    destruct (clean_variant_parts w Hw) as (Hw1 & Hw2 & _).
    rewrite (SketchFacts.trim_no_space w Hw2).
    rewrite filter_cons_True by exact Hw1. f_equal.
    clear Hall Hw Hw1 Hw2 Hne. induction ws as [|w2 ws IH]; [reflexivity|].
    apply Forall_cons in Hws as [Hw2 Hws].
    destruct (clean_variant_parts w2 Hw2) as (H1 & H2 & _).
    rewrite !fmap_cons, (trim_after_space w2 H2).
    rewrite filter_cons_True by exact H1. f_equal. apply IH, Hws.
Qed.

Lemma answer_is_read_as_its_list_witness :
  variations_of "dusk, twilight, gloaming" = ["dusk"; "twilight"; "gloaming"].
Proof.
  apply (proj2 answer_is_read_as_its_list ["dusk"; "twilight"; "gloaming"]).
  - discriminate.
  - repeat constructor; discriminate.
Defined.

End RoutesFacts.

(** * The choice of the serial port *)

Module PortsFacts.

Import Ports.

Lemma first_match_Some ports : ∀ port,
  first_match ports = Some port →
  ∃ before after,
    ports = (before ++ port :: after)%list
    ∧ looks_like_arduino port = true
    ∧ Forall (λ q, looks_like_arduino q = false) before.
Proof.
  induction ports as [|p ports IH]; intros port H; [discriminate|].
  simpl in H. destruct (looks_like_arduino p) eqn:Hp.
  - injection H as <-. exists [], ports. auto.
  - destruct (IH port H) as (before & after & -> & Hl & Hb).
    exists (p :: before), after. repeat split; [exact Hl|].
    constructor; assumption.
Qed.

Lemma first_match_None ports :
  first_match ports = None →
  Forall (λ q, looks_like_arduino q = false) ports.
Proof.
  induction ports as [|p ports IH]; intros H; [constructor|].
  simpl in H. destruct (looks_like_arduino p) eqn:Hp; [discriminate|].
  constructor; auto.
Qed.

(** X22.  The port the server opens.  A port named in the environment
    is taken as it is, whatever ports there are.  Without one, no port
    is found exactly when no port is listed; otherwise the port found is
    one of the listed ports: the first in the order of the list that
    some pattern matches, whichever pattern it is, and the first port of
    the list when no pattern matches any port. *)
Theorem port_found_is_first_match
    (envPort : option string) (ports : list string) :
  (∀ c p, envPort = Some (String c p) →
     findArduinoPort envPort ports = envPort)
  ∧ (envPort = None ∨ envPort = Some EmptyString →
     (findArduinoPort envPort ports = None ↔ ports = [])
     ∧ ∀ port,
         findArduinoPort envPort ports = Some port →
         ∃ before after,
           ports = (before ++ port :: after)%list
           ∧ Forall (λ q, looks_like_arduino q = false) before
           ∧ (looks_like_arduino port = true
              ∨ before = []
                ∧ Forall (λ q, looks_like_arduino q = false) ports)).
Proof.
  split.
  - intros c p ->. reflexivity.
  - intros Henv.
    assert (E : findArduinoPort envPort ports
                = match ports with
                  | [] => None
                  | p :: _ =>
                      match first_match ports with
                      | Some port => Some port
                      | None => Some p
                      end
                  end).
    { destruct Henv as [-> | ->]; destruct ports; reflexivity. }
    rewrite E. clear E. destruct ports as [|p ports].
    + split; [split; reflexivity|]. intros port H. discriminate.
    + split.
      * split; [|discriminate].
        destruct (first_match (p :: ports)); discriminate.
      * intros port H.
        destruct (first_match (p :: ports)) as [q|] eqn:Hq.
        -- injection H as ->.
           destruct (first_match_Some _ _ Hq) as (before & after & E & Hl & Hb).
           exists before, after. auto.
        -- injection H as ->. exists [], ports.
           repeat split; [constructor|]. right. split; [reflexivity|].
           apply first_match_None, Hq.
Qed.

Lemma port_found_is_first_match_witness :
  findArduinoPort (Some "/dev/ttyS9"%string) ["/dev/cu.usbmodem1"%string]
  = Some "/dev/ttyS9"%string.
Proof.
  exact (proj1 (port_found_is_first_match (Some "/dev/ttyS9"%string)
                  ["/dev/cu.usbmodem1"%string]) _ _ eq_refl).
Defined.

End PortsFacts.
